(** * A shallow embedding of the crawlers of PeterHyl/codes

    Sources modelled: [Python/crawler.py] (response cache, traversal
    engine, image download, content store, URL helpers),
    [Python/basic_functions.py] ([safe_func]) and
    [Python/shopify_crawler.py] (the per-domain worker).

    Conventions.
    - Python [str] values are [string]; byte payloads are [list Byte.byte].
    - A Python exception is a value of [exn]; a call that may raise
      returns [result A].
    - The network, the clock, the HTML parser and the hash function are
      collaborators of the code: they appear as Section variables and
      every theorem holds for all of them. *)

From Stdlib Require Import ZArith Ascii String.
From stdpp Require Import gmap strings list fin_maps pretty.

Local Open Scope Z_scope.

(* ===================================================================== *)
(** * Python string primitives *)
(* ===================================================================== *)

(** [old in s] for strings. *)
Fixpoint str_contains (old s : string) : bool :=
  match s with
  | EmptyString => String.prefix old EmptyString
  | String _ rest => String.prefix old s || str_contains old rest
  end.

(** [s.replace(old, new)] for a non-empty [old]: every non-overlapping
    occurrence, scanning from the left.  [skip] counts the characters of
    a matched occurrence that are still to be dropped. *)
Fixpoint str_replace_go (old new : string) (skip : nat) (s : string) : string :=
  match s with
  | EmptyString => EmptyString
  | String c rest =>
      match skip with
      | S k => str_replace_go old new k rest
      | O =>
          if String.prefix old s
          then new +:+ str_replace_go old new (String.length old - 1) rest
          else String c (str_replace_go old new 0 rest)
      end
  end.

Definition str_replace (old new s : string) : string :=
  str_replace_go old new 0 s.

(** [s.startswith(p)] and [s.endswith(p)]. *)
Definition startswith (s p : string) : bool := String.prefix p s.

Definition endswith (s p : string) : bool :=
  String.prefix (String.rev p) (String.rev s).

(** [s.endswith(tuple)]: true when some member of the tuple is a suffix. *)
Definition endswith_any (s : string) (ps : list string) : bool :=
  existsb (endswith s) ps.

(** [s.split(sep)] for a one-character separator: the pieces in order;
    the result is never empty. *)
Fixpoint str_split (sep : ascii) (s : string) : list string :=
  match s with
  | EmptyString => [EmptyString]
  | String c rest =>
      if Ascii.eqb c sep then EmptyString :: str_split sep rest
      else match str_split sep rest with
           | [] => [String c EmptyString]
           | p :: ps => String c p :: ps
           end
  end.

(** [s.split(sep)[-1]] and [s.split(sep)[-2]]. *)
Definition split_last (sep : ascii) (s : string) : string :=
  List.last (str_split sep s) EmptyString.

Definition split_last2 (sep : ascii) (s : string) : option string :=
  match List.rev (str_split sep s) with
  | _ :: p :: _ => Some p
  | _ => None
  end.

(** [s.rsplit(sep, 1)]: [None] stands for the one-element list Python
    returns when [sep] does not occur, [Some (a, b)] for [[a, b]], cut
    at the last occurrence. *)
Fixpoint str_rsplit1 (sep : ascii) (s : string) : option (string * string) :=
  match s with
  | EmptyString => None
  | String c rest =>
      match str_rsplit1 sep rest with
      | Some (a, b) => Some (String c a, b)
      | None => if Ascii.eqb c sep then Some (EmptyString, rest) else None
      end
  end.

(** [s.lower()] on ASCII letters. *)
Definition ascii_lower (c : ascii) : ascii :=
  let n := nat_of_ascii c in
  if (65 <=? n)%nat && (n <=? 90)%nat then ascii_of_nat (n + 32) else c.

Fixpoint str_lower (s : string) : string :=
  match s with
  | EmptyString => EmptyString
  | String c rest => String (ascii_lower c) (str_lower rest)
  end.

(** [x in listobj] for a list or deque of strings. *)
Definition py_in (x : string) (l : list string) : bool :=
  bool_decide (x ∈ l).

(* ===================================================================== *)
(** * crawler.py: URL helpers *)
(* ===================================================================== *)

(** [url_in_list(url, listobj)], crawler.py lines 357-366. *)
Definition url_in_list (url : string) (listobj : list string) : bool :=
  let http_version := str_replace "https://" "http://" url in
  let https_version := str_replace "http://" "https://" url in
  py_in http_version listobj || py_in https_version listobj.

(** [same_domain(netloc1, netloc2)], crawler.py lines 341-354.  When the
    name contains a dot, [split('.')] has at least two pieces, so the
    index [-2] exists. *)
Definition last_two_labels (netloc : string) : string :=
  let domain := str_lower netloc in
  if str_contains "." domain then
    match split_last2 "." domain with
    | Some p => p +:+ "." +:+ split_last "." domain
    | None => domain
    end
  else domain.

Definition same_domain (netloc1 netloc2 : string) : bool :=
  bool_decide (last_two_labels netloc1 = last_two_labels netloc2).

(* ===================================================================== *)
(** * Exceptions, log records and the collaborators *)
(* ===================================================================== *)

(** The exception classes the code names, plus a catch-all.
    [ConnectionError] stands for any [requests] connection error that is
    not an [SSLError] (which is its subclass). *)
Inductive exn : Type :=
  | MissingSchema | InvalidSchema | SSLError | ConnectionError
  | HTMLException
  | TypeError | ValueError | KeyError | JSONDecodeError
  | OtherError (name : string).

Global Instance exn_eq_dec : EqDecision exn.
Proof. solve_decision. Defined.

Inductive result (A : Type) : Type :=
  | Ok (a : A)
  | Raise (e : exn).
Global Arguments Ok {A} a.
Global Arguments Raise {A} e.

(** [isinstance(e, requests.exceptions.ConnectionError)]. *)
Definition is_ConnectionError (e : exn) : bool :=
  match e with ConnectionError | SSLError => true | _ => false end.

Inductive level : Type := DEBUG | INFO | WARNING | ERROR.

(** One constructor per [logging] call of the modelled code. *)
Inductive log_msg : Type :=
  | MsgCached (domain : option string) (url : string)      (* "Cached page: [%s] %s" *)
  | MsgDelete (domain : option string) (url : string)      (* "Should by delete row: [%s] %s" *)
  | MsgFailed (e : exn)                                    (* "FAILED: %s" *)
  | MsgSSL (e : exn)                                       (* "Problem with SSL certificate: %s" *)
  | MsgNonHtml (url : string)                              (* "Don't crawl non-HTML content, url: {}" *)
  | MsgCachedUrl (domain : option string) (url : string)   (* "Cached url [%s] %s" *)
  | MsgCrawling (url : string)                             (* "Crawling: %s" *)
  | MsgMaxPages                                            (* "The maximum number of pages has been reached." *)
  | MsgSummary (pages failed : Z)                          (* "%d pages crawled, %d links failed." *)
  | MsgImageFailed (e : exn)                               (* "Failed image downloading: %s" *)
  | MsgBadSuffix (url : string)                            (* "Bad suffix or status code for: %s" *)
  | MsgStored (name : string)                              (* "Image si store: %s" *)
  | MsgDownloaded (name : string)                          (* "The image has been downloaded: %s" *)
  | MsgSafeFunc (e : exn).                                 (* "func={}, args={}, kwargs={}." with exc_info *)

(** What [requests] hands back: the status code, the [content-type]
    header when present, the decoded text and the raw bytes. *)
Record response : Type := mkResponse {
  status_code : Z;
  content_type : option string;
  text : string;
  content : list Byte.byte
}.

(** A row of the table [sites (domain, url, content, store_time)]; a
    Python [None] is stored as SQL NULL.  Timestamps are microseconds. *)
Record row : Type := mkRow {
  r_domain : option string;
  r_url : string;
  r_content : option string;
  r_store_time : Z
}.

(** Everything the code can touch: the cache table in rowid order, the
    files of the image directory, the log, and [tick], the number of
    calls made so far to a collaborator (network, clock, database). *)
Record world : Type := mkWorld {
  tick : nat;
  db : list row;
  fs : gmap string (list Byte.byte);
  log : list (level * log_msg)
}.

(** A computation over a state [S]: [None] when the fuel of a loop ran
    out; otherwise a value or a raised exception, with the state as it is
    at that point. *)
Definition ST (S A : Type) : Type := S → option (result A * S).

Definition ret {S A} (a : A) : ST S A := λ w, Some (Ok a, w).
Definition raise {S A} (e : exn) : ST S A := λ w, Some (Raise e, w).
Definition out_of_fuel {S A} : ST S A := λ _, None.

Definition bind {S A B} (m : ST S A) (k : A → ST S B) : ST S B := λ w,
  match m w with
  | None => None
  | Some (Ok a, w') => k a w'
  | Some (Raise e, w') => Some (Raise e, w')
  end.

(** [try: m  except: h e]; [h] re-raises what it does not handle. *)
Definition try_except {S A} (m : ST S A) (h : exn → ST S A) : ST S A := λ w,
  match m w with
  | None => None
  | Some (Ok a, w') => Some (Ok a, w')
  | Some (Raise e, w') => h e w'
  end.

(** The computations of crawler.py run over the [world]. *)
Abbreviation M := (ST world).

Notation "'let!' x ':=' m 'in' k" := (bind m (λ x, k))
  (at level 10, x name, m at level 100, k at level 200, only parsing).
Notation "m '>>' k" := (bind m (λ _, k))
  (at level 100, k at level 200, right associativity, only parsing).

Definition logging (l : level) (m : log_msg) : M unit := λ w,
  Some (Ok tt, mkWorld (tick w) (db w) (fs w) (log w ++ [(l, m)])).

(** Advance [tick] and hand out its old value. *)
Definition next_tick : M nat := λ w,
  Some (Ok (tick w), mkWorld (S (tick w)) (db w) (fs w) (log w)).

Definition get_db : M (list row) := λ w, Some (Ok (db w), w).
Definition put_db (t : list row) : M unit := λ w,
  Some (Ok tt, mkWorld (tick w) t (fs w) (log w)).

(* ===================================================================== *)
(** * crawler.py: CrawlerCache *)
(* ===================================================================== *)

(** [timedelta(days=n)] in microseconds. *)
Definition timedelta_days (n : Z) : Z := n * 86400000000.

(** [WHERE domain=? and url=?].  A comparison with NULL is never true in
    SQL, so a [None] domain matches no row. *)
Definition row_matches (domain : option string) (url : string) (r : row) : bool :=
  match domain, r_domain r with
  | Some d, Some d' => bool_decide (d = d') && bool_decide (url = r_url r)
  | _, _ => false
  end.

(** The table has no key and no index; SQLite reads it by rowid, which
    is insertion order, and the SELECT has no ORDER BY: [fetchall]
    yields the matching rows oldest first. *)
Definition sql_select (domain : option string) (url : string) (t : list row) : list row :=
  List.filter (row_matches domain url) t.

Definition sql_delete (domain : option string) (url : string) (t : list row) : list row :=
  List.filter (λ r, negb (row_matches domain url r)) t.

Definition sql_insert (r : row) (t : list row) : list row := t ++ [r].

Section CrawlerCache.
(** [now k]: what [datetime.now()] answers when it is the [k]-th call
    to a collaborator; [sql_fault k]: the exception the database raises
    when a statement or commit is that call, if any. *)
Variable now : nat → Z.
Variable sql_fault : nat → option exn.

Definition datetime_now : M Z :=
  let! k := next_tick in ret (now k).

Definition sql_execute : M unit :=
  let! k := next_tick in
  match sql_fault k with
  | Some e => raise e
  | None => ret tt
  end.

(** [CrawlerCache.set], lines 41-47. *)
Definition cache_set (domain : option string) (url : string)
    (data : option string) : M unit :=
  let! t := datetime_now in
  sql_execute >>
  let! tbl := get_db in
  put_db (sql_insert (mkRow domain url data t) tbl) >>
  logging DEBUG (MsgCached domain url) >>
  sql_execute.   (* commit *)

(** [CrawlerCache.delete], lines 62-67. *)
Definition cache_delete (domain : option string) (url : string) : M unit :=
  sql_execute >>
  let! tbl := get_db in
  put_db (sql_delete domain url tbl) >>
  logging DEBUG (MsgDelete domain url).

(** [CrawlerCache.get], lines 49-60; [refresh] is [self.refresh].
    The result [None] is Python's [None]: no row, an expired row, or a
    row whose content is NULL. *)
Definition cache_get (refresh : Z) (domain : option string) (url : string)
    : M (option string) :=
  sql_execute >>
  let! tbl := get_db in
  match sql_select domain url tbl with
  | [] => ret None
  | row0 :: _ =>
      let! t := datetime_now in
      if r_store_time row0 + timedelta_days refresh <? t then
        cache_delete domain url >> ret None
      else ret (r_content row0)
  end.

(** [CrawlerCache.get_urls], lines 69-75. *)
Definition cache_get_urls (domain : option string) : M (list string) :=
  sql_execute >>
  let! tbl := get_db in
  ret (r_url <$> List.filter (λ r,
         match domain, r_domain r with
         | Some d, Some d' => bool_decide (d = d')
         | _, _ => false
         end) tbl).

(** [set(d, u, c1); ...; set(d, u, cn)]. *)
Fixpoint cache_set_all (domain : option string) (url : string)
    (cs : list (option string)) : M unit :=
  match cs with
  | [] => ret tt
  | c :: cs' => cache_set domain url c >> cache_set_all domain url cs'
  end.
End CrawlerCache.

Definition world0 : world := mkWorld 0 [] ∅ [].

(* ===================================================================== *)
(** * basic_functions.py: safe_func *)
(* ===================================================================== *)

(** [safe_func(func)], lines 16-32: the wrapped call returns what [func]
    returns; a bare [except:] catches whatever it raises, logs it at
    debug level and returns [None]. *)
Definition safe_func {A} (func : M (option A)) : M (option A) :=
  try_except func (λ e, logging DEBUG (MsgSafeFunc e) >> ret None).

(* ===================================================================== *)
(** * crawler.py: Crawler *)
(* ===================================================================== *)

(** The fields of a [Crawler] set by [__init__]: [cache] is [None] or a
    [CrawlerCache] with its [refresh]. *)
Record crawler : Type := mkCrawler {
  cache : option Z;
  max_pages : Z;
  single_domain : bool
}.

(** [Crawler.page_handler], lines 218-226: the default handler only logs. *)
Definition Crawler_page_handler {Soup : Type} (url : string) (soup : Soup) : M unit :=
  logging INFO (MsgCrawling url).

Section Crawler.
Variable now : nat → Z.
Variable sql_fault : nat → option exn.
(** [sess_get k url]: what [self.sess.get(url)] does as [k]-th call. *)
Variable sess_get : nat → string → result response.
(** [bs4.BeautifulSoup(text, "html.parser")] on a string, and the
    [href] values of [soup.select('a[href]')] in document order. *)
Variable Soup : Type.
Variable html_parser : string → result Soup.
Variable select_a_href : Soup → list string.
(** [urldefrag(link)[0]], [urlparse(link).netloc], [urljoin(url, link)]. *)
Variable urldefrag : string → string.
Variable netloc : string → string.
Variable urljoin : string → string → string.
(** The page handler in force (a subclass may override it). *)
Variable page_handler : string → Soup → M unit.

Variable self : crawler.
(** [self.domain] and [self.no_cache], both set by [crawl]. *)
Variable domain : option string.
Variable no_cache : bool.

(** [bs4.BeautifulSoup(markup, "html.parser")]: the constructor takes
    [len(markup)], which raises [TypeError] on [None]. *)
Definition BeautifulSoup (markup : option string) : M Soup :=
  match markup with
  | None => raise TypeError
  | Some t =>
      match html_parser t with
      | Ok soup => ret soup
      | Raise e => raise e
      end
  end.

(** [Crawler.get_html], lines 146-166.  [None] is the bare [return]
    of the [SSLError] branch. *)
Definition get_html (url : string) : M (option string) :=
  let! k := next_tick in
  match sess_get k url with
  | Raise MissingSchema => logging WARNING (MsgFailed MissingSchema) >> raise HTMLException
  | Raise InvalidSchema => logging WARNING (MsgFailed InvalidSchema) >> raise HTMLException
  | Raise SSLError => logging ERROR (MsgSSL SSLError) >> ret None
  | Raise e => raise e
  | Ok response =>
      match content_type response with
      | None => raise KeyError
      | Some ct =>
          if negb (startswith ct "text/html") then
            logging WARNING (MsgNonHtml url) >> raise HTMLException
          else ret (Some (text response))
      end
  end.

(** [Crawler.is_cacheable], lines 212-216. *)
Definition is_cacheable : bool :=
  match cache self with
  | Some _ => negb no_cache
  | None => false
  end.

(** Python truth value of an optional string. *)
Definition truthy (r : option string) : bool :=
  match r with
  | None | Some EmptyString => false
  | Some _ => true
  end.

(** [Crawler.get], lines 190-210.  The cache is consulted only when
    [is_cacheable()] holds, and then [self.cache] is there. *)
Definition Crawler_get (url : string) : M Soup :=
  match (if is_cacheable then cache self else None) with
  | Some refresh =>
      let! response := cache_get now sql_fault refresh domain url in
      if negb (truthy response) then
        let! response := get_html url in
        cache_set now sql_fault domain url response >>
        BeautifulSoup response
      else
        logging DEBUG (MsgCachedUrl domain url) >>
        BeautifulSoup response
  | None =>
      let! response := get_html url in
      BeautifulSoup response
  end.

(** [Crawler.get_links], lines 168-188. *)
Definition get_links (url : string) (soup : Soup) : list string :=
  let links := select_a_href soup in
  let links := urldefrag <$> links in
  let links := List.filter (λ link, negb (bool_decide (link = EmptyString))) links in
  let links := (λ link, if negb (bool_decide (netloc link = EmptyString))
                        then link else urljoin url link) <$> links in
  match domain with
  | Some d =>
      if negb (bool_decide (d = EmptyString))
      then List.filter (λ link, same_domain (netloc link) d) links
      else links
  | None => links
  end.

(** Lines 140-142: append each link that is neither crawled nor queued. *)
Fixpoint enqueue_links (links crawled page_queue : list string) : list string :=
  match links with
  | [] => page_queue
  | link :: links' =>
      if negb (url_in_list link crawled) && negb (url_in_list link page_queue)
      then enqueue_links links' crawled (page_queue ++ [link])
      else enqueue_links links' crawled page_queue
  end.

(** The [while page_queue:] loop of [Crawler.crawl], lines 122-142,
    one iteration per unit of fuel; it hands back the loop variables
    [pages], [failed] and [crawled] as they are when the loop ends. *)
Fixpoint crawl_loop (fuel : nat) (pages failed : Z)
    (crawled page_queue : list string) : M (Z * Z * list string) :=
  match fuel with
  | O => out_of_fuel
  | S fuel' =>
      match page_queue with
      | [] => ret (pages, failed, crawled)
      | url :: page_queue =>
          let! r := try_except (let! soup := Crawler_get url in ret (Some soup))
                      (λ e, match e with
                            | HTMLException => ret None
                            | _ => raise e
                            end) in
          match r with
          | None => crawl_loop fuel' pages (failed + 1) crawled page_queue
          | Some soup =>
              let crawled := crawled ++ [url] in
              let pages := pages + 1 in
              page_handler url soup >>
              if max_pages self <=? pages then
                logging INFO MsgMaxPages >> ret (pages, failed, crawled)
              else
                let links := get_links url soup in
                crawl_loop fuel' pages failed crawled
                  (enqueue_links links crawled page_queue)
          end
      end
  end.
End Crawler.

(** [url] is served as an HTML page that parses to [soup], whenever it
    is asked for. *)
Definition serves {Soup} (sess_get : nat → string → result response)
    (html_parser : string → result Soup) (url : string) (soup : Soup) : Prop :=
  ∀ k, ∃ r ct, sess_get k url = Ok r ∧ content_type r = Some ct
               ∧ startswith ct "text/html" = true ∧ html_parser (text r) = Ok soup.

Section Crawl.
Variable now : nat → Z.
Variable sql_fault : nat → option exn.
Variable sess_get : nat → string → result response.
Variable Soup : Type.
Variable html_parser : string → result Soup.
Variable select_a_href : Soup → list string.
Variable urldefrag : string → string.
Variable netloc : string → string.
Variable urljoin : string → string → string.
Variable page_handler : string → Soup → M unit.

(** [self.domain] as [crawl] sets it, line 120. *)
Definition crawl_domain (self : crawler) (start_page : string) : option string :=
  if single_domain self then Some (netloc start_page) else None.

(** The body of [Crawler.crawl], lines 105-144, with its loop
    variables in the result so that they can be observed. *)
Definition crawl_run (fuel : nat) (self : crawler) (start_page : string)
    (no_cache : bool) : M (Z * Z * list string) :=
  let! r :=
    crawl_loop now sql_fault sess_get Soup html_parser select_a_href
      urldefrag netloc urljoin page_handler self
      (crawl_domain self start_page) no_cache fuel 0 0 [] [start_page] in
  let '(pages, failed, crawled) := r in
  logging INFO (MsgSummary pages failed) >>
  ret (pages, failed, crawled).

(** The undecorated [crawl]: it has no [return], so it yields [None]. *)
Definition crawl_body (fuel : nat) (self : crawler) (start_page : string)
    (no_cache : bool) : M (option Empty_set) :=
  crawl_run fuel self start_page no_cache >> ret None.

(** [Crawler.crawl] as callers see it: [@safe_func def crawl]. *)
Definition crawl (fuel : nat) (self : crawler) (start_page : string)
    (no_cache : bool) : M (option Empty_set) :=
  safe_func (crawl_body fuel self start_page no_cache).
End Crawl.

(* ===================================================================== *)
(** * crawler.py: write_to_file and ImageCrawler.download_image *)
(* ===================================================================== *)

(** How [write_to_file] returned: it wrote [name], or it found the same
    digest already at [name]. *)
Inductive stored : Type :=
  | Written (name : string)
  | AlreadyThere (name : string).

Definition stored_name (s : stored) : string :=
  match s with Written n | AlreadyThere n => n end.

(** ["{}_{}.{}".format(new_name, count, suffix)]. *)
Definition counter_name (stem : string) (count : nat) (suffix : string) : string :=
  stem +:+ "_" +:+ pretty count +:+ "." +:+ suffix.

Section ContentStore.
(** [sha1(data).hexdigest()]. *)
Variable sha1_hexdigest : list Byte.byte → string.

(** The [while True:] loop of [write_to_file], lines 321-338, over the
    files of the directory (name to content), one iteration per unit of
    fuel.  Unpacking [file_name.rsplit('.', 1)] into two names raises
    [ValueError] when [file_name] has no dot. *)
Fixpoint write_to_file_loop (fuel : nat) (data : list Byte.byte)
    (file_name new_name : string) (count : nat)
    (files : gmap string (list Byte.byte))
    : option (result stored * gmap string (list Byte.byte)) :=
  match fuel with
  | O => None
  | S fuel' =>
      match files !! new_name with
      | None => Some (Ok (Written new_name), <[new_name := data]> files)
      | Some old =>
          if bool_decide (sha1_hexdigest data = sha1_hexdigest old)
          then Some (Ok (AlreadyThere new_name), files)
          else
            match str_rsplit1 "." file_name with
            | None => Some (Raise ValueError, files)
            | Some (stem, suffix) =>
                write_to_file_loop fuel' data file_name
                  (counter_name stem count suffix) (S count) files
            end
      end
  end.

(** [write_to_file(data, file_name)], lines 308-338.  The loop is run
    with two more units of fuel than there are files, which is always
    enough: the counter names are pairwise distinct. *)
Definition write_to_file (data : list Byte.byte) (file_name : string)
    (files : gmap string (list Byte.byte))
    : option (result stored * gmap string (list Byte.byte)) :=
  write_to_file_loop (2 + size files) data file_name file_name 0 files.

(** The same call inside a computation on the world, with its log. *)
Definition write_to_file_M (data : list Byte.byte) (file_name : string) : M unit := λ w,
  match write_to_file data file_name (fs w) with
  | None => None
  | Some (Raise e, files) => Some (Raise e, mkWorld (tick w) (db w) files (log w))
  | Some (Ok (Written n), files) =>
      Some (Ok tt, mkWorld (tick w) (db w) files (log w ++ [(INFO, MsgStored n)]))
  | Some (Ok (AlreadyThere n), files) =>
      Some (Ok tt, mkWorld (tick w) (db w) files (log w ++ [(DEBUG, MsgDownloaded n)]))
  end.
End ContentStore.

(** [ImageCrawler.suffix_list], line 230. *)
Definition suffix_list : list string :=
  [".jpg"; ".gif"; ".png"; ".tif"; ".svg"; ".ico"].

(** The extensions of [suffix_list]. *)
Definition image_ext (ext : string) : Prop :=
  ext ∈ ["jpg"; "gif"; "png"; "tif"; "svg"; "ico"].

(** [os.path.join(a, b)] (posixpath). *)
Definition os_path_join (a b : string) : string :=
  if startswith b "/" then b
  else if bool_decide (a = EmptyString) || endswith a "/" then a +:+ b
  else a +:+ "/" +:+ b.

Section ImageCrawler.
Variable sess_get : nat → string → result response.
Variable sha1_hexdigest : list Byte.byte → string.
(** [urlsplit(img_url)[2]], the path component. *)
Variable urlsplit_path : string → string.
(** [self.path_images]. *)
Variable path_images : string.

(** The destination of an image, line 292. *)
Definition image_file_name (img_url : string) : string :=
  os_path_join path_images (split_last "/" (urlsplit_path img_url)).

(** [ImageCrawler.download_image], lines 285-305. *)
Definition download_image (img_url : string) : M unit :=
  let file_name := image_file_name img_url in
  let! k := next_tick in
  match sess_get k img_url with
  | Raise MissingSchema => logging INFO (MsgImageFailed MissingSchema)
  | Raise InvalidSchema => logging INFO (MsgImageFailed InvalidSchema)
  | Raise SSLError => logging ERROR (MsgSSL SSLError)
  | Raise e => raise e
  | Ok i =>
      if endswith_any file_name suffix_list && (status_code i =? 200)
      then write_to_file_M sha1_hexdigest (content i) file_name
      else logging DEBUG (MsgBadSuffix img_url)
  end.
End ImageCrawler.

(* ===================================================================== *)
(** * shopify_crawler.py *)
(* ===================================================================== *)

(** The values a record of [dict_stores] holds. *)
Inductive value : Type :=
  | VStr (s : string)
  | VSet (s : gset string)
  | VList (l : list string).

(** [urlunparse(("http", netloc, path, None, None, None))]. *)
Definition urlunparse_http (netloc path : string) : string :=
  let url :=
    if negb (bool_decide (netloc = EmptyString)) || negb (startswith path "//")
    then "//" +:+ netloc +:+
         (if negb (bool_decide (path = EmptyString)) && negb (startswith path "/")
          then "/" +:+ path else path)
    else path in
  "http:" +:+ url.

(** [THREAD_COUNT], [Crawler._sub_pages]. *)
Definition THREAD_COUNT : nat := 40.
Definition sub_pages : list string :=
  [""; "about"; "about-us"; "contact"; "contact-us"].

(** The dicts of [dict_stores], by position, and the shared input queue,
    which holds references (positions) to them: a worker fills in the
    very dict that [main] writes out. *)
Record shop : Type := mkShop {
  s_tick : nat;
  s_stores : list (gmap string value);
  s_queue : list nat
}.

Definition shop_tick : ST shop nat := λ st,
  Some (Ok (s_tick st), mkShop (S (s_tick st)) (s_stores st) (s_queue st)).

(** [self.data[key] = v] where [self.data] is the dict at position [i]. *)
Definition data_set (i : nat) (key : string) (v : value) : ST shop unit := λ st,
  Some (Ok tt, mkShop (s_tick st) (alter (insert key v) i (s_stores st)) (s_queue st)).

(** [self.data[key]]; a missing key raises [KeyError]. *)
Definition data_get (i : nat) (key : string) : ST shop value := λ st,
  match s_stores st !! i ≫= (λ d, d !! key) with
  | Some v => Some (Ok v, st)
  | None => Some (Raise KeyError, st)
  end.

(** [self.data[key].update(new)]. *)
Definition data_update (i : nat) (key : string) (new : gset string) : ST shop unit :=
  let! v := data_get i key in
  match v with
  | VSet old => data_set i key (VSet (old ∪ new))
  | _ => raise (OtherError "AttributeError")
  end.

(** [except (MissingSchema, ConnectionError)]. *)
Definition ignored_error (e : exn) : bool :=
  bool_decide (e = MissingSchema) || is_ConnectionError e.

(** Lines 199-201 and 188-191: [count] slots from [i] on get empty
    title and image. *)
Fixpoint fill_slots (self_data : nat) (count : nat) (i : nat) : ST shop unit :=
  match count with
  | O => ret tt
  | S count' =>
      data_set self_data ("title " +:+ pretty i) (VStr "") >>
      data_set self_data ("image " +:+ pretty i) (VStr "") >>
      fill_slots self_data count' (S i)
  end.

(** [Crawler._fill_empty], lines 195-201: [for i in range(1, count + 1)]. *)
Definition fill_empty (self_data : nat) (count : nat) : ST shop unit :=
  fill_slots self_data count 1.

(** Lines 151-157: the first [limit] distinct links that start with a
    slash; the length test follows every link. *)
Fixpoint collect_products (limit : nat) (refs products : list string) : list string :=
  match refs with
  | [] => products
  | link :: refs' =>
      let products :=
        if startswith link "/" && negb (py_in link products)
        then products ++ [link] else products in
      if (limit <=? length products)%nat then products
      else collect_products limit refs' products
  end.

Section Shopify.
Variable sess_get : nat → string → result response.
(** [Crawler.get_contacts] (regular expressions and bs4): the emails,
    facebook links and twitter links of a page. *)
Variable get_contacts : string → gset string * gset string * gset string.
(** The [href] values of
    [soup.find_all(["a", "href"], href=re.compile(r"/products/"))]. *)
Variable product_refs : string → list string.
(** [response.json()], then [data["product"]["title"]] and
    [data["product"]["image"]] with its ["src"] when it is truthy. *)
Variable Json : Type.
Variable response_json : string → result Json.
Variable product_title : Json → result string.
Variable product_image : Json → result (option string).

Definition lift {S A} (r : result A) : ST S A :=
  match r with
  | Ok a => ret a
  | Raise e => raise e
  end.

(** The [for url in self._urls] loop of [run], lines 78-94. *)
Fixpoint crawl_sub_pages (self_data : nat) (urls : list string) : ST shop unit :=
  match urls with
  | [] => ret tt
  | url :: urls' =>
      let! k := shop_tick in
      match sess_get k url with
      | Raise e => if ignored_error e then crawl_sub_pages self_data urls' else raise e
      | Ok response =>
          if status_code response =? 404 then crawl_sub_pages self_data urls'
          else
            let '(mail, facebook, twitter) := get_contacts (text response) in
            data_update self_data "email" mail >>
            data_update self_data "facebook" facebook >>
            data_update self_data "twitter" twitter >>
            crawl_sub_pages self_data urls'
      end
  end.

(** [Crawler._convert_to_list], lines 203-213, for one [item].  The
    order [list(set)] gives is the one of [elements]. *)
Definition convert_item (self_data : nat) (item : string) : ST shop unit :=
  let! v := data_get self_data item in
  let l := match v with
           | VSet s => elements s
           | VList l => l
           | VStr s => (λ c, String c EmptyString) <$> list_ascii_of_string s
           end in
  match l with
  | [] => data_set self_data item (VStr "")
  | [x] => data_set self_data item (VStr x)
  | _ => data_set self_data item (VList l)
  end.

Definition convert_to_list (self_data : nat) : ST shop unit :=
  convert_item self_data "email" >>
  convert_item self_data "facebook" >>
  convert_item self_data "twitter".

(** The [for url in urls] loop of [get_first_products], lines 164-186;
    it hands back the final [i]. *)
Fixpoint fetch_products (self_data : nat) (urls : list string) (i : nat) : ST shop nat :=
  match urls with
  | [] => ret i
  | url :: urls' =>
      let! k := shop_tick in
      match sess_get k url with
      | Raise e => if ignored_error e then fetch_products self_data urls' i else raise e
      | Ok response =>
          if status_code response =? 404 then fetch_products self_data urls' i
          else
            try_except
              (let! data := lift (response_json (text response)) in
               let! title := lift (product_title data) in
               data_set self_data ("title " +:+ pretty i) (VStr title) >>
               let! image := lift (product_image data) in
               match image with
               | Some src => data_set self_data ("image " +:+ pretty i) (VStr src)
               | None => data_set self_data ("image " +:+ pretty i) (VStr "")
               end)
              (λ e, match e with
                    | JSONDecodeError =>
                        data_set self_data ("title " +:+ pretty i) (VStr "") >>
                        data_set self_data ("image " +:+ pretty i) (VStr "")
                    | _ => raise e
                    end) >>
            fetch_products self_data urls' (S i)
      end
  end.

(** [Crawler.get_first_products], lines 128-193; [domain] is
    [self.data["url"]]. *)
Definition get_first_products (self_data : nat) (domain url_collections : string)
    (limit : nat) : ST shop unit :=
  let! k := shop_tick in
  match sess_get k url_collections with
  | Raise e => if ignored_error e then fill_empty self_data limit else raise e
  | Ok response =>
      if status_code response =? 404 then fill_empty self_data limit
      else
        let products := collect_products limit (product_refs (text response)) [] in
        let urls := (λ path, urlunparse_http domain (path +:+ ".json")) <$> products in
        let! i := fetch_products self_data urls 1 in
        fill_slots self_data (limit + 1 - i) i
  end.

(** One turn of the [while] loop of [run], lines 65-100, for the dict
    at position [self_data]. *)
Definition run_item (self_data : nat) : ST shop unit :=
  let! url := data_get self_data "url" in
  let domain := match url with VStr s => s | _ => EmptyString end in
  data_set self_data "email" (VSet ∅) >>
  data_set self_data "facebook" (VSet ∅) >>
  data_set self_data "twitter" (VSet ∅) >>
  let urls := (λ sub, urlunparse_http domain sub) <$> sub_pages in
  let url_collections := urlunparse_http domain "collections/all" in
  crawl_sub_pages self_data urls >>
  convert_to_list self_data >>
  get_first_products self_data domain url_collections 5.

(** [Crawler.run], lines 55-102: take items until the queue is empty. *)
Fixpoint run (fuel : nat) : ST shop unit :=
  match fuel with
  | O => out_of_fuel
  | S fuel' => λ st,
      match s_queue st with
      | [] => Some (Ok tt, st)
      | self_data :: rest =>
          (run_item self_data >> run fuel')
            (mkShop (s_tick st) (s_stores st) rest)
      end
  end.

(** The workers of [main], lines 275-282, under the schedule in which
    they run one after the other; an exception that escapes [run] ends
    that worker only. *)
Fixpoint workers (n : nat) (st : shop) : option shop :=
  match n with
  | O => Some st
  | S n' =>
      match run (S (length (s_queue st))) st with
      | None => None
      | Some (_, st') => workers n' st'
      end
  end.

(** [main], lines 258-287, from the [url] column of the input to the
    rows handed to [write_to_csv]. *)
Definition main (stores_csv : list string) : option (list (gmap string value)) :=
  let dict_stores := (λ u, {[ "url" := VStr u ]}) <$> stores_csv in
  let input_queue := seq 0 (length dict_stores) in
  s_stores <$> workers THREAD_COUNT (mkShop 0 dict_stores input_queue).
End Shopify.

(** A URL that is plain for [url_in_list]: its text does not hold both
    ["http://"] and ["https://"] (one scheme at most, no URL of the
    other scheme inside). *)
Definition plain_url (url : string) : Prop :=
  str_contains "https://" url = false ∨ str_contains "http://" url = false.

(** The keys of the product slots [i], ..., [i + count - 1] and of the
    contact fields of a record. *)
Definition slot_keys (i count : nat) : gset string :=
  list_to_set (flat_map (λ j : nat, ["title " +:+ pretty j; "image " +:+ pretty j])
                 (seq i count)).

Definition contact_keys : gset string := {[ "email"; "facebook"; "twitter" ]}.

(** A field that is no longer a set. *)
Definition not_set (v : value) : Prop :=
  match v with VSet _ => False | _ => True end.

(** [m], started where [P] holds, returns with [Q] or raises with [E],
    and does not run out of fuel. *)
Definition triple {S A} (P : S → Prop) (m : ST S A)
    (Q : A → S → Prop) (E : exn → S → Prop) : Prop :=
  ∀ st, P st →
    match m st with
    | Some (Ok a, st') => Q a st'
    | Some (Raise e, st') => E e st'
    | None => False
    end.

(** The record at position [i] satisfies [φ]; the other records, the
    queue and the number of records are those of [st0]. *)
Definition record_at (i : nat) (st0 : shop) (φ : gmap string value → Prop)
    (st : shop) : Prop :=
  (∃ d, s_stores st !! i = Some d ∧ φ d)
  ∧ (∀ j, j ≠ i → s_stores st !! j = s_stores st0 !! j)
  ∧ s_queue st = s_queue st0
  ∧ length (s_stores st) = length (s_stores st0).

(** A record with keys [D] and ["url"] field [u0], whose fields [sets]
    hold sets and whose fields [done] hold strings or lists. *)
Definition fields (u0 : option value) (D : gset string) (sets done : list string)
    (d : gmap string value) : Prop :=
  dom d = D
  ∧ d !! "url" = u0
  ∧ (∀ k, k ∈ sets → ∃ s, d !! k = Some (VSet s))
  ∧ (∀ k, k ∈ done → ∃ v, d !! k = Some v ∧ not_set v).

(** The records are those read from the input, in number and in their
    ["url"] field; the queue is [q]. *)
Definition rows_kept (stores_csv : list string) (q : list nat) (st : shop) : Prop :=
  length (s_stores st) = length stores_csv
  ∧ (∀ j u, stores_csv !! j = Some u →
       ∃ d, s_stores st !! j = Some d ∧ d !! "url" = Some (VStr u))
  ∧ s_queue st = q.

(** A request that the worker skips: it raised one of the two ignored
    errors or it came back with status 404. *)
Definition unreachable (r : result response) : bool :=
  match r with
  | Raise e => ignored_error e
  | Ok response => status_code response =? 404
  end.

(** The record of a domain on which nothing was found. *)
Definition empty_record (url : string) : gmap string value :=
  list_to_map
    [("url", VStr url); ("email", VStr ""); ("facebook", VStr ""); ("twitter", VStr "");
     ("title 1", VStr ""); ("image 1", VStr ""); ("title 2", VStr ""); ("image 2", VStr "");
     ("title 3", VStr ""); ("image 3", VStr ""); ("title 4", VStr ""); ("image 4", VStr "");
     ("title 5", VStr ""); ("image 5", VStr "")].

(** A computation that returns from every state (no loop runs dry). *)
Definition total {S A} (m : ST S A) : Prop := ∀ w, is_Some (m w).

(* ===================================================================== *)
(** * basic_functions.py: paths *)
(* ===================================================================== *)

(** [s[n:]]. *)
Fixpoint str_drop (n : nat) (s : string) : string :=
  match n, s with
  | O, _ => s
  | S _, EmptyString => EmptyString
  | S n', String _ rest => str_drop n' rest
  end.

(** The [for suffix in iter_suffix] loop of [new_path], lines 51-55;
    [suffixes] holds [str(suffix)] for the items of the iterable, and
    [existing] the paths for which [os.path.exists] is true. *)
Fixpoint new_path_loop (existing : gset string) (path : string)
    (suffixes : list string) : result string :=
  match suffixes with
  | [] => Raise ValueError
  | suffix :: rest =>
      let tmp_path := path +:+ suffix in
      if negb (bool_decide (tmp_path ∈ existing)) then Ok tmp_path
      else new_path_loop existing path rest
  end.

(** [new_path(path, iter_suffix)], lines 35-55. *)
Definition new_path (existing : gset string) (path : string)
    (suffixes : list string) : result string :=
  if negb (bool_decide (path ∈ existing)) then Ok path
  else new_path_loop existing path suffixes.

(** The default [iter_suffix=range(1000)]. *)
Definition range_1000 : list string := (λ k : nat, pretty k) <$> seq 0 1000.

(** [get_unc_path(path)], lines 91-107.  [nt] says whether [os.name]
    is ["nt"], [abspath] is [os.path.abspath]; Python writes the three
    prefixes with doubled backslashes. *)
Definition get_unc_path (nt : bool) (abspath : string → string)
    (path : string) : option string :=
  if bool_decide (path = EmptyString) then None
  else if negb nt then Some path
  else
    let path := abspath path in
    if startswith path "\\" then
      if startswith path "\\?\" then Some path
      else Some ("\\?\UNC\" +:+ str_drop 2 path)
    else Some ("\\?\" +:+ path).

(** [remove_unc_prefix(path)], lines 110-120. *)
Definition remove_unc_prefix (path : string) : string :=
  if startswith path "\\?\UNC\" then "\\" +:+ str_drop 8 path
  else if startswith path "\\?\" then str_drop 4 path
  else path.

(* ===================================================================== *)
(** * Concrete collaborators for the examples *)
(* ===================================================================== *)

(** The examples need some network, parser, hash and [urllib].  These
    are small stand-ins, adequate for URLs of the shape
    [scheme://host/path?query#fragment]. *)

(** A network on which every request fails to connect. *)
Definition no_route (k : nat) (url : string) : result response := Raise ConnectionError.

(** A digest that is the payload itself. *)
Definition plain_digest (data : list Byte.byte) : string :=
  String.string_of_list_byte data.

(** The text after the first ["://"], or the whole text without one. *)
Fixpoint after_scheme_go (s whole : string) : string :=
  match s with
  | EmptyString => whole
  | String _ rest => if String.prefix "://" s then String.substring 3 (String.length s - 3) s
                     else after_scheme_go rest whole
  end.
Definition after_scheme (s : string) : string := after_scheme_go s s.

(** The text before the first character satisfying [stop], and the text
    from it on. *)
Fixpoint take_until (stop : ascii → bool) (s : string) : string :=
  match s with
  | EmptyString => EmptyString
  | String c rest => if stop c then EmptyString else String c (take_until stop rest)
  end.
Fixpoint drop_until (stop : ascii → bool) (s : string) : string :=
  match s with
  | EmptyString => EmptyString
  | String c rest => if stop c then s else drop_until stop rest
  end.

Definition is_delim (c : ascii) : bool :=
  Ascii.eqb c "/" || Ascii.eqb c "?" || Ascii.eqb c "#".
Definition is_query (c : ascii) : bool :=
  Ascii.eqb c "?" || Ascii.eqb c "#".

Definition simple_netloc (url : string) : string :=
  if str_contains "://" url then take_until is_delim (after_scheme url) else EmptyString.
Definition simple_path (url : string) : string :=
  take_until is_query (drop_until is_delim (after_scheme url)).
Definition simple_urldefrag (url : string) : string :=
  take_until (λ c, Ascii.eqb c "#") url.
Definition simple_scheme (url : string) : string :=
  take_until (λ c, Ascii.eqb c ":") url.

(** The directory part of a path, up to and including its last slash. *)
Definition dirname_slash (path : string) : string :=
  match str_rsplit1 "/" path with
  | Some (dir, _) => dir +:+ "/"
  | None => "/"
  end.

Definition simple_urljoin (base link : string) : string :=
  let root := simple_scheme base +:+ "://" +:+ simple_netloc base in
  if startswith link "/" then root +:+ link
  else root +:+ dirname_slash (simple_path base) +:+ link.

(** A parser for pages whose text is just the targets of their links,
    separated by blanks. *)
Definition words_parser (text : string) : result (list string) := Ok (String.words text).

Definition html_page (body : string) : result response :=
  Ok (mkResponse 200 (Some "text/html; charset=utf-8") body []).

(** A site of four pages: the start page links to [b] and [c], [b]
    links to [d]. *)
Definition site (k : nat) (url : string) : result response :=
  if bool_decide (url = "http://hej.sk/") then html_page "http://hej.sk/b http://hej.sk/c"
  else if bool_decide (url = "http://hej.sk/b") then html_page "http://hej.sk/d"
  else if bool_decide (url = "http://hej.sk/c") then html_page ""
  else if bool_decide (url = "http://hej.sk/d") then html_page ""
  else Raise ConnectionError.

(** The same site when the TLS handshake for [b] fails. *)
Definition site_bad_tls (k : nat) (url : string) : result response :=
  if bool_decide (url = "http://hej.sk/b") then Raise SSLError else site k url.

(** The same site when [b] cannot be connected to. *)
Definition site_b_down (k : nat) (url : string) : result response :=
  if bool_decide (url = "http://hej.sk/b") then Raise ConnectionError else site k url.

(** [crawl] on the stand-ins, with the default page handler. *)
Definition crawl_on (sess_get : nat → string → result response) :=
  crawl (λ k, Z.of_nat k) (λ _, None) sess_get (list string) words_parser id
    simple_urldefrag simple_netloc simple_urljoin Crawler_page_handler.

(* ===================================================================== *)
(** * The primitives on the values Python gives *)
(* ===================================================================== *)

Example str_replace_all_occurrences :
  str_replace "http://" "https://" "http://a/?u=http://b" = "https://a/?u=https://b".
Proof. vm_compute. reflexivity. Qed.

Example str_split_trailing : str_split "/" "/img/" = [""; "img"; ""].
Proof. vm_compute. reflexivity. Qed.

Example str_rsplit1_last_dot :
  str_rsplit1 "." "./images/logo.min.png" = Some ("./images/logo.min", "png")
  ∧ str_rsplit1 "." "README" = None.
Proof. vm_compute. done. Qed.

Example counter_name_first : counter_name "./images/logo" 0 "png" = "./images/logo_0.png".
Proof. vm_compute. reflexivity. Qed.

Example os_path_join_default : os_path_join "./images" "logo.png" = "./images/logo.png".
Proof. vm_compute. reflexivity. Qed.

Example same_domain_subdomains :
  same_domain "shop.example.com" "www.Example.com" = true
  ∧ same_domain "example.com" "other.com" = false.
Proof. vm_compute. done. Qed.

Example url_in_list_scheme_variant :
  url_in_list "https://hej.sk/a" ["http://hej.sk/a"] = true
  ∧ url_in_list "http://hej.sk/a" ["https://hej.sk/a"] = true
  ∧ url_in_list "http://hej.sk/a" ["http://hej.sk/b"] = false.
Proof. vm_compute. done. Qed.

Example urlunparse_http_sub_pages :
  (λ sub, urlunparse_http "a.myshopify.com" sub) <$> sub_pages
  = ["http://a.myshopify.com"; "http://a.myshopify.com/about";
     "http://a.myshopify.com/about-us"; "http://a.myshopify.com/contact";
     "http://a.myshopify.com/contact-us"].
Proof. vm_compute. reflexivity. Qed.

(* ===================================================================== *)
(** * Properties of the content store *)
(* ===================================================================== *)

Lemma string_app_cons c (a b : string) : String c a +:+ b = String c (a +:+ b).
Proof. reflexivity. Qed.

Lemma string_app_nil (b : string) : EmptyString +:+ b = b.
Proof. reflexivity. Qed.

Lemma string_app_length (a b : string) :
  String.length (a +:+ b) = (String.length a + String.length b)%nat.
Proof.
  induction a as [|c a IH]; [done|].
  rewrite string_app_cons. simpl. by rewrite IH.
Qed.

Lemma string_app_inv_tail (a b t : string) : a +:+ t = b +:+ t → a = b.
Proof.
  revert b. induction a as [|c a IH]; intros [|c' b] H.
  - done.
  - apply (f_equal String.length) in H.
    rewrite !string_app_length in H. simpl in H. lia.
  - apply (f_equal String.length) in H.
    rewrite !string_app_length in H. simpl in H. lia.
  - rewrite !string_app_cons in H. injection H as -> H. f_equal. by apply IH.
Qed.

Lemma counter_name_inj stem suffix : Inj (=) (=) (λ k, counter_name stem k suffix).
Proof.
  intros k k' H. unfold counter_name in H.
  apply (inj (String.app stem)) in H.
  apply (inj (String.app "_")) in H.
  apply string_app_inv_tail in H.
  by apply (inj pretty) in H.
Qed.

(** The counter names below [c] that are all taken are distinct files,
    so there are at most as many as there are files. *)
Lemma taken_names_bound (files : gmap string (list Byte.byte)) stem suffix (c : nat) :
  (∀ j, (j < c)%nat → is_Some (files !! counter_name stem j suffix)) →
  (c ≤ size files)%nat.
Proof.
  intros Htaken.
  set (names := (λ k, counter_name stem k suffix) <$> seq 0 c).
  assert (NoDup names) as Hnd.
  { apply (NoDup_fmap_2 _ (Inj0 := counter_name_inj stem suffix)), NoDup_seq. }
  assert (list_to_set names ⊆ dom files) as Hsub.
  { intros n Hn. apply elem_of_list_to_set, list_elem_of_fmap in Hn as (j & -> & Hj).
    apply elem_of_seq in Hj. apply elem_of_dom, Htaken. lia. }
  apply subseteq_size in Hsub.
  rewrite size_list_to_set in Hsub by done.
  rewrite size_dom in Hsub. unfold names in Hsub.
  by rewrite length_fmap, length_seq in Hsub.
Qed.

Section ContentStoreFacts.
Variable sha1_hexdigest : list Byte.byte → string.
Local Abbreviation loop := (write_to_file_loop sha1_hexdigest).

Lemma write_to_file_loop_S fuel data fn new_name count files :
  loop (S fuel) data fn new_name count files =
  match files !! new_name with
  | None => Some (Ok (Written new_name), <[new_name := data]> files)
  | Some old =>
      if bool_decide (sha1_hexdigest data = sha1_hexdigest old)
      then Some (Ok (AlreadyThere new_name), files)
      else
        match str_rsplit1 "." fn with
        | None => Some (Raise ValueError, files)
        | Some (stem, suffix) =>
            loop fuel data fn (counter_name stem count suffix) (S count) files
        end
  end.
Proof. reflexivity. Qed.

(** More fuel does not change a result. *)
Lemma write_to_file_loop_fuel fuel fuel' data fn new_name count files r :
  loop fuel data fn new_name count files = Some r →
  (fuel ≤ fuel')%nat →
  loop fuel' data fn new_name count files = Some r.
Proof.
  revert fuel' new_name count.
  induction fuel as [|fuel IH]; intros fuel' new_name count H Hle; [done|].
  destruct fuel' as [|fuel']; [lia|]. simpl in *.
  destruct (files !! new_name) as [old|]; [|done].
  case_bool_decide; [done|].
  destruct (str_rsplit1 "." fn) as [[stem suffix]|]; [|done].
  apply IH; [done | lia].
Qed.

(** From a counter name on, the loop stops before the fuel does once
    the fuel exceeds the number of files not yet ruled out. *)
Lemma write_to_file_loop_stops fuel data fn stem suffix c files :
  str_rsplit1 "." fn = Some (stem, suffix) →
  (∀ j, (j < c)%nat → is_Some (files !! counter_name stem j suffix)) →
  (size files < c + fuel)%nat →
  is_Some (loop fuel data fn (counter_name stem c suffix) (S c) files).
Proof.
  intros Hsplit. revert c.
  induction fuel as [|fuel IH]; intros c Htaken Hsize.
  - apply taken_names_bound in Htaken. lia.
  - simpl. destruct (files !! counter_name stem c suffix) as [old|] eqn:Hold; [|done].
    case_bool_decide; [done|]. rewrite Hsplit.
    apply IH; [|lia].
    intros j Hj. destruct (decide (j = c)) as [->|]; [by rewrite Hold|].
    apply Htaken. lia.
Qed.

Lemma write_to_file_is_Some data fn files :
  is_Some (write_to_file sha1_hexdigest data fn files).
Proof.
  unfold write_to_file. change (2 + size files)%nat with (S (S (size files))).
  rewrite write_to_file_loop_S.
  destruct (files !! fn) as [old|]; [|done].
  case_bool_decide; [done|].
  destruct (str_rsplit1 "." fn) as [[stem suffix]|] eqn:Hsplit; [|done].
  apply write_to_file_loop_stops.
  - done.
  - intros j Hj. exfalso. lia.
  - lia.
Qed.

(** What a finished loop has done. *)
Lemma write_to_file_loop_outcome fuel data fn new_name count files r files' :
  loop fuel data fn new_name count files = Some (r, files') →
  match r with
  | Ok (Written n) => files !! n = None ∧ files' = <[n := data]> files
  | Ok (AlreadyThere n) =>
      (∃ old, files !! n = Some old ∧ sha1_hexdigest data = sha1_hexdigest old)
      ∧ files' = files
  | Raise e => e = ValueError ∧ str_rsplit1 "." fn = None ∧ files' = files
  end.
Proof.
  revert new_name count.
  induction fuel as [|fuel IH]; intros new_name count H; [done|]. simpl in H.
  destruct (files !! new_name) as [old|] eqn:Hold.
  - case_bool_decide.
    + simplify_eq. eauto.
    + destruct (str_rsplit1 "." fn) as [[stem suffix]|] eqn:Hsplit.
      * by eapply IH.
      * by simplify_eq.
  - by simplify_eq.
Qed.

(** No existing file is ever changed. *)
Lemma write_to_file_loop_extends fuel data fn new_name count files r files' :
  loop fuel data fn new_name count files = Some (r, files') → files ⊆ files'.
Proof.
  intros H. apply write_to_file_loop_outcome in H.
  destruct r as [[n|n]|e].
  - destruct H as [Hn ->]. by apply insert_subseteq.
  - by destruct H as [_ ->].
  - by destruct H as (_ & _ & ->).
Qed.

(** The name a finished loop reports is the one it started from or a
    counter name with a counter not below [count]. *)
Lemma write_to_file_loop_name fuel data fn stem suffix new_name count files n files' :
  str_rsplit1 "." fn = Some (stem, suffix) →
  loop fuel data fn new_name count files = Some (Ok n, files') →
  stored_name n = new_name
  ∨ ∃ k, (count ≤ k)%nat ∧ stored_name n = counter_name stem k suffix.
Proof.
  intros Hsplit. revert new_name count.
  induction fuel as [|fuel IH]; intros new_name count H; [done|]. simpl in H.
  destruct (files !! new_name) as [old|] eqn:Hold.
  - case_bool_decide.
    + simplify_eq. by left.
    + rewrite Hsplit in H. apply IH in H as [H | (k & Hk & H)]; right.
      * exists count. split; [lia | done].
      * exists k. split; [lia | done].
  - simplify_eq. by left.
Qed.

(** A second write with the same digest finds the first one. *)
Lemma write_to_file_loop_again fuel fuel' data1 data2 fn new_name count files n files1 :
  sha1_hexdigest data1 = sha1_hexdigest data2 →
  loop fuel data1 fn new_name count files = Some (Ok n, files1) →
  (fuel ≤ fuel')%nat →
  ∃ x, loop fuel' data2 fn new_name count files1 = Some (Ok (AlreadyThere x), files1).
Proof.
  intros Hsha. revert fuel' new_name count.
  induction fuel as [|fuel IH]; intros fuel' new_name count H Hle; [done|].
  destruct fuel' as [|fuel']; [lia|]. simpl in H. simpl.
  destruct (files !! new_name) as [old|] eqn:Hold.
  - case_bool_decide as Hd.
    + simplify_eq. rewrite Hold. rewrite bool_decide_true by congruence. eauto.
    + destruct (str_rsplit1 "." fn) as [[stem suffix]|] eqn:Hsplit; [|done].
      pose proof (write_to_file_loop_extends _ _ _ _ _ _ _ _ H) as Hsub.
      rewrite (lookup_weaken _ _ _ _ Hold Hsub).
      rewrite bool_decide_false by congruence.
      apply IH; [done | lia].
  - simplify_eq. rewrite lookup_insert_eq.
    rewrite bool_decide_true by congruence. eauto.
Qed.
End ContentStoreFacts.

(** ** The claims about [write_to_file] and [download_image] *)







(** C10.  When the request of [download_image] does not come back with
    status 200 for a destination name ending in one of [suffix_list]
    (it raised, or the status or the suffix is another one), the call
    returns and the files are what they were. *)
Theorem download_image_writes_only_image_ok
    (sess_get : nat → string → result response)
    (sha1_hexdigest : list Byte.byte → string) (urlsplit_path : string → string)
    (path_images img_url : string) (w : world) :
  (∀ i, sess_get (tick w) img_url = Ok i →
     endswith_any (image_file_name urlsplit_path path_images img_url) suffix_list
       && (status_code i =? 200) = false) →
  ∃ r w', download_image sess_get sha1_hexdigest urlsplit_path path_images img_url w
          = Some (r, w')
    ∧ fs w' = fs w.
Proof.
  intros Hbad. unfold download_image, bind, next_tick. cbv beta iota.
  change (tick (mkWorld (S (tick w)) (db w) (fs w) (log w))) with (S (tick w)).
  destruct (sess_get (tick w) img_url) as [i|e] eqn:Hget.
  - rewrite (Hbad i eq_refl). unfold logging. simpl. eauto.
  - destruct e; unfold logging, raise; simpl; eauto.
Qed.

Lemma download_image_writes_only_image_ok_witness :
  ∃ r w', download_image
            (λ _ _, Ok (mkResponse 404 (Some "text/html") "" [Byte.x61]))
            plain_digest simple_path "./images" "http://h.sk/a.png" world0
          = Some (r, w')
    ∧ fs w' = fs world0.
Proof.
  apply download_image_writes_only_image_ok.
  intros i [= <-]. vm_compute. reflexivity.
Defined.

(* ===================================================================== *)
(** * Properties of the response cache *)
(* ===================================================================== *)

Lemma sql_select_app d u (t1 t2 : list row) :
  sql_select d u (t1 ++ t2) = sql_select d u t1 ++ sql_select d u t2.
Proof. unfold sql_select. apply List.filter_app. Qed.

Lemma sql_select_delete d u (t : list row) :
  sql_select d u (sql_delete d u t) = [].
Proof.
  unfold sql_select, sql_delete. induction t as [|r t IH]; [done|]. simpl.
  destruct (row_matches d u r) eqn:Hr; simpl; [done|]. by rewrite Hr.
Qed.

Lemma row_matches_same d u c t :
  row_matches (Some d) u (mkRow (Some d) u c t) = true.
Proof. unfold row_matches. simpl. by rewrite !bool_decide_true. Qed.

Section CacheFacts.
Variable now : nat → Z.
Variable sql_fault : nat → option exn.
Hypothesis no_fault : ∀ k, sql_fault k = None.

Lemma cache_set_ok domain url data w :
  cache_set now sql_fault domain url data w =
  Some (Ok tt, mkWorld (3 + tick w)
                 (db w ++ [mkRow domain url data (now (tick w))])
                 (fs w) (log w ++ [(DEBUG, MsgCached domain url)])).
Proof.
  unfold cache_set, bind, datetime_now, sql_execute, bind, next_tick, ret,
    get_db, put_db, logging, sql_insert.
  simpl. by rewrite !no_fault.
Qed.

Lemma cache_set_all_ok domain url cs w :
  ∃ w1 rows, cache_set_all now sql_fault domain url cs w = Some (Ok tt, w1)
    ∧ db w1 = db w ++ rows
    ∧ tick w1 = (3 * length cs + tick w)%nat.
Proof.
  revert w. induction cs as [|c cs IH]; intros w.
  - exists w, []. simpl. by rewrite app_nil_r.
  - simpl. unfold bind at 1. rewrite cache_set_ok.
    destruct (IH (mkWorld (3 + tick w)
                    (db w ++ [mkRow domain url c (now (tick w))])
                    (fs w) (log w ++ [(DEBUG, MsgCached domain url)])))
      as (w1 & rows & Hrun & Hdb & Htick).
    exists w1, (mkRow domain url c (now (tick w)) :: rows).
    split; [done|]. simpl in Hdb, Htick. split.
    + by rewrite Hdb, <- app_assoc.
    + lia.
Qed.

(** What [get] does when the first matching row is [row0]. *)
Lemma cache_get_first refresh domain url w row0 rest :
  sql_select domain url (db w) = row0 :: rest →
  cache_get now sql_fault refresh domain url w =
  if r_store_time row0 + timedelta_days refresh <? now (S (tick w))
  then Some (Ok None, mkWorld (3 + tick w) (sql_delete domain url (db w)) (fs w)
                        (log w ++ [(DEBUG, MsgDelete domain url)]))
  else Some (Ok (r_content row0), mkWorld (2 + tick w) (db w) (fs w) (log w)).
Proof.
  intros Hsel. unfold sql_select in Hsel.
  unfold cache_get, bind, datetime_now, sql_execute, bind, next_tick, ret, get_db,
    sql_select.
  cbn. rewrite no_fault. cbn. rewrite Hsel. cbn.
  destruct (r_store_time row0 + timedelta_days refresh <? now (S (tick w))); [|done].
  unfold cache_delete, bind, sql_execute, bind, next_tick, ret, get_db, put_db, logging.
  simpl. by rewrite no_fault.
Qed.
End CacheFacts.




(* ===================================================================== *)
(** * Properties of url_in_list *)
(* ===================================================================== *)

(** C5, the failing input.  The list holds the [http] variant of a URL
    whose query carries another [https] URL; [replace] rewrites both
    occurrences, so neither version is found. *)
Theorem url_in_list_misses_scheme_variant :
  let rest := "://hej.sk/login?next=https://hej.sk/home" in
  str_replace "https://" "http://" ("https" +:+ rest)
    = "http://hej.sk/login?next=http://hej.sk/home"
  ∧ str_replace "http://" "https://" ("https" +:+ rest) = "https" +:+ rest
  ∧ url_in_list ("https" +:+ rest) ["http" +:+ rest] = false.
Proof. vm_compute. repeat split. Qed.

(* ===================================================================== *)
(** * Properties of the shopify worker *)
(* ===================================================================== *)

Lemma bind_ext {S A B} (m m' : ST S A) (k k' : A → ST S B) (w : S) :
  m w = m' w → (∀ a w', k a w' = k' a w') → bind m k w = bind m' k' w.
Proof.
  intros Hm Hk. unfold bind. rewrite Hm.
  destruct (m' w) as [[[a|e] w']|]; [apply Hk | done | done].
Qed.

Section ShopifyFacts.
Variable sess_get : nat → string → result response.
Variable get_contacts : string → gset string * gset string * gset string.
Variable product_refs : string → list string.
Variable Json : Type.
Variable response_json : string → result Json.
Variable product_title : Json → result string.
Variable product_image : Json → result (option string).
Hypothesis all_unreachable : ∀ k url, unreachable (sess_get k url) = true.

(** On such a network every function of the worker does what it does
    when no request connects at all. *)
Lemma crawl_sub_pages_no_route self_data urls st :
  crawl_sub_pages sess_get get_contacts self_data urls st
  = crawl_sub_pages no_route get_contacts self_data urls st.
Proof.
  revert st. induction urls as [|url urls IH]; intros st; [done|].
  simpl. unfold bind, shop_tick.
  pose proof (all_unreachable (s_tick st) url) as Hu. unfold unreachable in Hu.
  destruct (sess_get (s_tick st) url) as [r|e].
  - rewrite Hu. apply IH.
  - rewrite Hu. apply IH.
Qed.

Lemma get_first_products_no_route self_data domain url_collections limit st :
  get_first_products sess_get product_refs Json response_json product_title
    product_image self_data domain url_collections limit st
  = get_first_products no_route product_refs Json response_json product_title
    product_image self_data domain url_collections limit st.
Proof.
  unfold get_first_products, bind, shop_tick.
  pose proof (all_unreachable (s_tick st) url_collections) as Hu.
  unfold unreachable in Hu.
  destruct (sess_get (s_tick st) url_collections) as [r|e]; by rewrite Hu.
Qed.

Lemma run_item_no_route self_data st :
  run_item sess_get get_contacts product_refs Json response_json product_title
    product_image self_data st
  = run_item no_route get_contacts product_refs Json response_json product_title
    product_image self_data st.
Proof.
  unfold run_item.
  apply bind_ext; [done|]. intros url st1.
  do 3 (apply bind_ext; [done|]; intros ? ?).
  apply bind_ext; [apply crawl_sub_pages_no_route|]. intros ? ?.
  apply bind_ext; [done|]. intros ? ?.
  apply get_first_products_no_route.
Qed.

Lemma run_no_route fuel st :
  run sess_get get_contacts product_refs Json response_json product_title
    product_image fuel st
  = run no_route get_contacts product_refs Json response_json product_title
    product_image fuel st.
Proof.
  revert st. induction fuel as [|fuel IH]; intros st; [done|]. simpl.
  destruct (s_queue st) as [|i rest]; [done|].
  apply bind_ext; [apply run_item_no_route|]. intros ? ?. apply IH.
Qed.

Lemma workers_no_route n st :
  workers sess_get get_contacts product_refs Json response_json product_title
    product_image n st
  = workers no_route get_contacts product_refs Json response_json product_title
    product_image n st.
Proof.
  revert st. induction n as [|n IH]; intros st; [done|]. cbn [workers].
  rewrite run_no_route.
  destruct (run no_route _ _ _ _ _ _ _ _) as [[r st']|]; [apply IH | done].
Qed.
End ShopifyFacts.

Lemma empty_record_fields (url : string) :
  let r := empty_record url in
  r !! "url" = Some (VStr url)
  ∧ r !! "email" = Some (VStr "")
  ∧ r !! "facebook" = Some (VStr "")
  ∧ r !! "twitter" = Some (VStr "")
  ∧ ∀ i : nat, (1 ≤ i ≤ 5)%nat →
      r !! ("title " +:+ pretty i) = Some (VStr "")
      ∧ r !! ("image " +:+ pretty i) = Some (VStr "").
Proof.
  repeat split; try (vm_compute; reflexivity).
  all: destruct i as [|[|[|[|[|[|i]]]]]]; try lia; vm_compute; reflexivity.
Qed.



(* ===================================================================== *)
(** * Properties of the traversal *)
(* ===================================================================== *)

Lemma total_ret {S A} (a : A) : total (ret a : ST S A).
Proof. intros w. by eexists. Qed.

Lemma total_raise {S A} (e : exn) : total (raise e : ST S A).
Proof. intros w. by eexists. Qed.

Lemma total_bind {S A B} (m : ST S A) (k : A → ST S B) :
  total m → (∀ a, total (k a)) → total (bind m k).
Proof.
  intros Hm Hk w. unfold bind. destruct (Hm w) as [[[a|e] w'] ->]; [apply Hk | by eexists].
Qed.

Lemma total_try_except {S A} (m : ST S A) (h : exn → ST S A) :
  total m → (∀ e, total (h e)) → total (try_except m h).
Proof.
  intros Hm Hh w. unfold try_except.
  destruct (Hm w) as [[[a|e] w'] ->]; [by eexists | apply Hh].
Qed.

Lemma total_logging l m : total (logging l m).
Proof. intros w. by eexists. Qed.

Lemma total_next_tick : total next_tick.
Proof. intros w. by eexists. Qed.

Create HintDb total discriminated.
#[local] Hint Resolve total_ret total_raise total_logging total_next_tick : total.
#[local] Hint Extern 2 (total (bind _ _)) => apply total_bind; [|intros ?] : total.
#[local] Hint Extern 2 (total (try_except _ _)) => apply total_try_except; [|intros ?] : total.

Section CacheTotal.
Variable now : nat → Z.
Variable sql_fault : nat → option exn.

Lemma total_sql_execute : total (sql_execute sql_fault).
Proof.
  unfold sql_execute. apply total_bind; [auto with total|]. intros k.
  destruct (sql_fault k); auto with total.
Qed.

Lemma total_datetime_now : total (datetime_now now).
Proof. unfold datetime_now. auto with total. Qed.

Lemma total_get_db : total get_db.
Proof. intros w. by eexists. Qed.

Lemma total_put_db t : total (put_db t).
Proof. intros w. by eexists. Qed.

Hint Resolve total_sql_execute total_datetime_now total_get_db total_put_db : total.

Lemma total_cache_set domain url data : total (cache_set now sql_fault domain url data).
Proof. unfold cache_set. auto 20 with total. Qed.

Lemma total_cache_delete domain url : total (cache_delete sql_fault domain url).
Proof. unfold cache_delete. auto 20 with total. Qed.

Lemma total_cache_get refresh domain url :
  total (cache_get now sql_fault refresh domain url).
Proof.
  unfold cache_get. apply total_bind; [auto with total|]. intros _.
  apply total_bind; [auto with total|]. intros tbl.
  destruct (sql_select domain url tbl) as [|row0 rest]; [auto with total|].
  apply total_bind; [auto with total|]. intros t.
  destruct (_ <? _); [|auto with total].
  apply total_bind; [apply total_cache_delete | auto with total].
Qed.
End CacheTotal.

Section CrawlerFacts.
Variable now : nat → Z.
Variable sql_fault : nat → option exn.
Variable sess_get : nat → string → result response.
Variable Soup : Type.
Variable html_parser : string → result Soup.
Variable select_a_href : Soup → list string.
Variable urldefrag : string → string.
Variable netloc : string → string.
Variable urljoin : string → string → string.
Variable page_handler : string → Soup → M unit.
Variable self : crawler.
Variable domain : option string.
Variable no_cache : bool.

Local Abbreviation get := (Crawler_get now sql_fault sess_get Soup html_parser
                             self domain no_cache).
Local Abbreviation links_of := (get_links Soup select_a_href urldefrag netloc urljoin domain).
Local Abbreviation loop := (crawl_loop now sql_fault sess_get Soup html_parser
                              select_a_href urldefrag netloc urljoin page_handler
                              self domain no_cache).

Lemma total_BeautifulSoup markup : total (BeautifulSoup Soup html_parser markup).
Proof.
  unfold BeautifulSoup. destruct markup as [t|]; [|auto with total].
  destruct (html_parser t); auto with total.
Qed.

Lemma total_get_html url : total (get_html sess_get url).
Proof.
  unfold get_html. apply total_bind; [auto with total|]. intros k.
  destruct (sess_get k url) as [r|e].
  - destruct (content_type r) as [ct|]; [|auto with total].
    destruct (negb _); auto with total.
  - destruct e; auto with total.
Qed.

Lemma total_Crawler_get url : total (get url).
Proof.
  unfold Crawler_get.
  destruct (is_cacheable self no_cache); [destruct (cache self) as [refresh|]|].
  - apply total_bind; [apply total_cache_get|]. intros response.
    destruct (negb (truthy response)).
    + apply total_bind; [apply total_get_html|]. intros response'.
      apply total_bind; [apply total_cache_set|]. intros _.
      apply total_BeautifulSoup.
    + apply total_bind; [auto with total|]. intros _. apply total_BeautifulSoup.
  - apply total_bind; [apply total_get_html|]. intros ?. apply total_BeautifulSoup.
  - apply total_bind; [apply total_get_html|]. intros ?. apply total_BeautifulSoup.
Qed.

(** One turn of the loop, by what [get] and the handler did. *)
Lemma crawl_loop_S fuel pages failed crawled url page_queue w :
  loop (S fuel) pages failed crawled (url :: page_queue) w =
  match get url w with
  | None => None
  | Some (Raise HTMLException, w1) => loop fuel pages (failed + 1) crawled page_queue w1
  | Some (Raise e, w1) => Some (Raise e, w1)
  | Some (Ok soup, w1) =>
      match page_handler url soup w1 with
      | None => None
      | Some (Raise e, w2) => Some (Raise e, w2)
      | Some (Ok _, w2) =>
          if max_pages self <=? pages + 1
          then Some (Ok (pages + 1, failed, crawled ++ [url]),
                     mkWorld (tick w2) (db w2) (fs w2) (log w2 ++ [(INFO, MsgMaxPages)]))
          else loop fuel (pages + 1) failed (crawled ++ [url])
                 (enqueue_links (links_of url soup) (crawled ++ [url]) page_queue) w2
      end
  end.
Proof.
  cbn [crawl_loop]. unfold bind at 1. unfold try_except. unfold bind at 1.
  destruct (get url w) as [[[soup|e] w1]|]; [| |done].
  - unfold ret at 1. unfold bind at 1.
    destruct (page_handler url soup w1) as [[[[]|e] w2]|]; [|done|done].
    destruct (max_pages self <=? pages + 1); [|done].
    reflexivity.
  - destruct e; try reflexivity.
Qed.

Lemma crawl_loop_nil fuel pages failed crawled w :
  loop (S fuel) pages failed crawled [] w = Some (Ok (pages, failed, crawled), w).
Proof. reflexivity. Qed.

(** More fuel does not change a result. *)
Lemma crawl_loop_fuel fuel fuel' pages failed crawled page_queue w r :
  loop fuel pages failed crawled page_queue w = Some r →
  (fuel ≤ fuel')%nat →
  loop fuel' pages failed crawled page_queue w = Some r.
Proof.
  revert fuel' pages failed crawled page_queue w.
  induction fuel as [|fuel IH]; intros fuel' pages failed crawled page_queue w H Hle;
    [done|].
  destruct fuel' as [|fuel']; [lia|].
  destruct page_queue as [|url page_queue]; [by rewrite crawl_loop_nil in *|].
  rewrite crawl_loop_S in *.
  destruct (get url w) as [[[soup|e] w1]|]; [| |done].
  - destruct (page_handler url soup w1) as [[[[]|e] w2]|]; [|done|done].
    destruct (max_pages self <=? pages + 1); [done|].
    apply IH; [done | lia].
  - destruct e; try done. apply IH; [done | lia].
Qed.

(** The loop stops: a page that is handled uses up budget, any other
    turn shortens the queue. *)
Lemma crawl_loop_stops :
  (∀ url soup, total (page_handler url soup)) →
  ∀ (n : nat) page_queue pages failed crawled w,
    (Z.to_nat (max_pages self - pages) ≤ n)%nat →
    ∃ fuel, is_Some (loop fuel pages failed crawled page_queue w).
Proof.
  intros Hhandler n. induction n as [n IHn] using lt_wf_ind.
  intros page_queue. induction page_queue as [|url page_queue IHq];
    intros pages failed crawled w Hn.
  - exists 1%nat. by rewrite crawl_loop_nil.
  - destruct (total_Crawler_get url w) as [[[soup|e] w1] Hget].
    + destruct (Hhandler url soup w1) as [[[[]|e] w2] Hh].
      * destruct (max_pages self <=? pages + 1) eqn:Hmax.
        -- exists 1%nat. rewrite crawl_loop_S, Hget, Hh, Hmax. by eexists.
        -- pose proof (proj1 (Z.leb_gt _ _) Hmax) as Hlt.
           destruct (IHn (Z.to_nat (max_pages self - (pages + 1))) ltac:(lia)
                       (enqueue_links (links_of url soup) (crawled ++ [url]) page_queue)
                       (pages + 1) failed (crawled ++ [url]) w2 ltac:(lia))
             as [fuel Hfuel].
           exists (S fuel). by rewrite crawl_loop_S, Hget, Hh, Hmax.
      * exists 1%nat. rewrite crawl_loop_S, Hget, Hh. by eexists.
    + destruct (decide (e = HTMLException)) as [->|Hne].
      * destruct (IHq pages (failed + 1) crawled w1 Hn) as [fuel Hfuel].
        exists (S fuel). by rewrite crawl_loop_S, Hget.
      * exists 1%nat. rewrite crawl_loop_S, Hget.
        destruct e; first [done | by eexists].
Qed.
End CrawlerFacts.

Lemma url_in_list_nil url : url_in_list url [] = false.
Proof.
  unfold url_in_list, py_in. rewrite !bool_decide_false; [done | |]; apply not_elem_of_nil.
Qed.

Section CrawlFacts.
Variable now : nat → Z.
Variable sql_fault : nat → option exn.
Variable sess_get : nat → string → result response.
Variable Soup : Type.
Variable html_parser : string → result Soup.
Variable select_a_href : Soup → list string.
Variable urldefrag : string → string.
Variable netloc : string → string.
Variable urljoin : string → string → string.
Variable self : crawler.
Variable domain : option string.
Variable no_cache : bool.
Hypothesis uncached : is_cacheable self no_cache = false.

Local Abbreviation get := (Crawler_get now sql_fault sess_get Soup html_parser
                             self domain no_cache).

Lemma Crawler_get_uncached url w :
  get url w = bind (get_html sess_get url) (BeautifulSoup Soup html_parser) w.
Proof.
  unfold Crawler_get. by rewrite uncached.
Qed.

Lemma Crawler_get_serves url soup w :
  serves sess_get html_parser url soup →
  get url w = Some (Ok soup, mkWorld (S (tick w)) (db w) (fs w) (log w)).
Proof.
  intros Hserves. destruct (Hserves (tick w)) as (r & ct & Hget & Hct & Hhtml & Hparse).
  rewrite Crawler_get_uncached. unfold bind, get_html, bind, next_tick. cbn.
  rewrite Hget, Hct, Hhtml. cbn. unfold BeautifulSoup. by rewrite Hparse.
Qed.

(** A TLS failure: [get_html] logs it and returns [None], and the
    parser raises [TypeError] on that. *)
Lemma Crawler_get_ssl url w :
  sess_get (tick w) url = Raise SSLError →
  get url w = Some (Raise TypeError,
                    mkWorld (S (tick w)) (db w) (fs w)
                      (log w ++ [(ERROR, MsgSSL SSLError)])).
Proof.
  intros Hget. rewrite Crawler_get_uncached.
  unfold bind, get_html, bind, next_tick. cbn. by rewrite Hget.
Qed.

(** So the loop ends there, whatever is left in the queue. *)
Lemma crawl_loop_ssl page_handler fuel pages failed crawled url page_queue w :
  sess_get (tick w) url = Raise SSLError →
  crawl_loop now sql_fault sess_get Soup html_parser select_a_href urldefrag netloc
    urljoin page_handler self domain no_cache (S fuel) pages failed crawled
    (url :: page_queue) w
  = Some (Raise TypeError,
          mkWorld (S (tick w)) (db w) (fs w) (log w ++ [(ERROR, MsgSSL SSLError)])).
Proof. intros Hget. by rewrite crawl_loop_S, Crawler_get_ssl. Qed.

Local Abbreviation default_loop :=
  (crawl_loop now sql_fault sess_get Soup html_parser select_a_href urldefrag netloc
     urljoin Crawler_page_handler self domain no_cache).

(** A served page below the budget: it is handled and its links are
    queued. *)
Lemma crawl_loop_served_below fuel pages failed crawled url soup page_queue w :
  serves sess_get html_parser url soup →
  (max_pages self <=? pages + 1) = false →
  default_loop (S fuel) pages failed crawled (url :: page_queue) w
  = default_loop fuel (pages + 1) failed (crawled ++ [url])
      (enqueue_links
         (get_links Soup select_a_href urldefrag netloc urljoin domain url soup)
         (crawled ++ [url]) page_queue)
      (mkWorld (S (tick w)) (db w) (fs w) (log w ++ [(INFO, MsgCrawling url)])).
Proof.
  intros Hserves Hmax.
  rewrite crawl_loop_S, (Crawler_get_serves _ _ _ Hserves).
  unfold Crawler_page_handler, logging. by rewrite Hmax.
Qed.

(** A served page that reaches the budget: it is handled and the loop
    is left. *)
Lemma crawl_loop_served_last fuel pages failed crawled url soup page_queue w :
  serves sess_get html_parser url soup →
  (max_pages self <=? pages + 1) = true →
  default_loop (S fuel) pages failed crawled (url :: page_queue) w
  = Some (Ok (pages + 1, failed, crawled ++ [url]),
          mkWorld (S (tick w)) (db w) (fs w)
            ((log w ++ [(INFO, MsgCrawling url)]) ++ [(INFO, MsgMaxPages)])).
Proof.
  intros Hserves Hmax.
  rewrite crawl_loop_S, (Crawler_get_serves _ _ _ Hserves).
  unfold Crawler_page_handler, logging. by rewrite Hmax.
Qed.
End CrawlFacts.

(** ** The claims about [Crawler.crawl] *)

(** C2, the failing input.  A crawler without cache and with a budget of
    50 pages starts at a page linking to [b] and [c]; the request for [b]
    raises [SSLError].  [get_html] logs the error and returns [None], the
    parser raises [TypeError] on it, the loop is left and [safe_func]
    swallows the exception: [crawl] returns [None] after one page, [c]
    is never requested.  With a cache the same happens after a row with
    NULL content was stored for [b]; a connection error that is not a
    TLS error leaves the loop too. *)
Theorem ssl_failure_ends_the_whole_run :
  let self := mkCrawler None 50 true in
  let cached := mkCrawler (Some 7) 50 true in
  crawl_run (λ k, Z.of_nat k) (λ _, None) site_bad_tls (list string) words_parser id
    simple_urldefrag simple_netloc simple_urljoin Crawler_page_handler
    10 self "http://hej.sk/" false world0
  = Some (Raise TypeError,
          mkWorld 2 [] ∅ [(INFO, MsgCrawling "http://hej.sk/"); (ERROR, MsgSSL SSLError)])
  ∧ crawl_on site_bad_tls 10 self "http://hej.sk/" false world0
    = Some (Ok None,
            mkWorld 2 [] ∅ [(INFO, MsgCrawling "http://hej.sk/"); (ERROR, MsgSSL SSLError);
                            (DEBUG, MsgSafeFunc TypeError)])
  ∧ (∃ w', crawl_on site_bad_tls 10 cached "http://hej.sk/" false world0 = Some (Ok None, w')
           ∧ ((INFO, MsgCrawling "http://hej.sk/c") ∉ log w')
           ∧ List.last (log w') (INFO, MsgMaxPages) = (DEBUG, MsgSafeFunc TypeError))
  ∧ crawl_on site_b_down 10 self "http://hej.sk/" false world0
    = Some (Ok None,
            mkWorld 2 [] ∅ [(INFO, MsgCrawling "http://hej.sk/");
                            (DEBUG, MsgSafeFunc ConnectionError)])
  ∧ crawl_on site 10 self "http://hej.sk/" false world0
    = Some (Ok None,
            mkWorld 4 [] ∅ [(INFO, MsgCrawling "http://hej.sk/");
                            (INFO, MsgCrawling "http://hej.sk/b");
                            (INFO, MsgCrawling "http://hej.sk/c");
                            (INFO, MsgCrawling "http://hej.sk/d");
                            (INFO, MsgSummary 4 0)]).
Proof.
  split; [vm_compute; reflexivity|].
  split; [vm_compute; reflexivity|].
  split; [|split; vm_compute; reflexivity].
  eexists. split; [vm_compute; reflexivity|]. split; [|vm_compute; reflexivity].
  cbn [log]. intros Hin. apply list_elem_of_In in Hin. simpl in Hin.
  repeat (destruct Hin as [Hin|Hin]; [discriminate Hin|]). done.
Qed.

Section BreadthFirst.
Variable now : nat → Z.
Variable sql_fault : nat → option exn.
Variable sess_get : nat → string → result response.
Variable Soup : Type.
Variable html_parser : string → result Soup.
Variable select_a_href : Soup → list string.
Variable urldefrag : string → string.
Variable netloc : string → string.
Variable urljoin : string → string → string.

Local Abbreviation links_of self start :=
  (get_links Soup select_a_href urldefrag netloc urljoin (crawl_domain netloc self start)).

(** C4.  Budget 3, no cache in use, every page served; the start page
    links to [B] then [C] and [B] links to [D]: the pages are handled
    in the order start, [B], [C], the run stops on the budget, and [D]
    is not among the pages crawled. *)
Theorem breadth_first_until_budget (self : crawler) (no_cache : bool)
    (A B C D : string) (soupA soupB soupC : Soup) (w : world) (fuel : nat) :
  max_pages self = 3 →
  is_cacheable self no_cache = false →
  serves sess_get html_parser A soupA →
  serves sess_get html_parser B soupB →
  serves sess_get html_parser C soupC →
  links_of self A A soupA = [B; C] →
  links_of self A B soupB = [D] →
  url_in_list B [A] = false →
  url_in_list C [A] = false →
  url_in_list C [B] = false →
  D ∉ [A; B; C] →
  (3 ≤ fuel)%nat →
  ∃ w',
    crawl_run now sql_fault sess_get Soup html_parser select_a_href urldefrag netloc
      urljoin Crawler_page_handler fuel self A no_cache w
    = Some (Ok (3, 0, [A; B; C]), w')
    ∧ log w' = log w ++ [(INFO, MsgCrawling A); (INFO, MsgCrawling B);
                         (INFO, MsgCrawling C); (INFO, MsgMaxPages);
                         (INFO, MsgSummary 3 0)]
    ∧ (INFO, MsgCrawling D) ∉ [(INFO, MsgCrawling A); (INFO, MsgCrawling B);
                               (INFO, MsgCrawling C); (INFO, MsgMaxPages);
                               (INFO, MsgSummary 3 0)].
Proof.
  intros Hmax Hunc HA HB HC HlA HlB HBA HCA HCB HD Hfuel.
  destruct fuel as [|[|[|fuel]]]; try lia.
  eexists. split; [|split].
  - unfold crawl_run. unfold bind at 1.
    rewrite (crawl_loop_served_below _ _ _ _ _ _ _ _ _ _ _ _ Hunc _ _ _ _ _ _ _ _ HA)
      by by rewrite Hmax.
    rewrite HlA. cbn [enqueue_links app].
    rewrite HBA, url_in_list_nil. cbn [negb andb app].
    rewrite HCA, HCB. cbn [negb andb app].
    rewrite (crawl_loop_served_below _ _ _ _ _ _ _ _ _ _ _ _ Hunc _ _ _ _ _ _ _ _ HB)
      by by rewrite Hmax.
    rewrite HlB. cbn [enqueue_links app].
    assert (∃ rest, (if negb (url_in_list D [A; B]) && negb (url_in_list D [C])
                     then [C; D] else [C]) = C :: rest) as [rest ->].
    { destruct (_ && _); eauto. }
    rewrite (crawl_loop_served_last _ _ _ _ _ _ _ _ _ _ _ _ Hunc _ _ _ _ _ _ _ _ HC)
      by by rewrite Hmax.
    unfold bind, logging, ret. cbn. reflexivity.
  - cbn [log]. rewrite <- !app_assoc. reflexivity.
  - intros Hin. apply list_elem_of_In in Hin. simpl in Hin.
    destruct Hin as [Hin|[Hin|[Hin|[Hin|[Hin|[]]]]]]; try discriminate Hin;
      injection Hin as Hin; apply HD; subst; set_solver.
Qed.
End BreadthFirst.

Lemma breadth_first_until_budget_witness :
  ∃ w',
    crawl_run (λ k, Z.of_nat k) (λ _, None) site (list string) words_parser id
      simple_urldefrag simple_netloc simple_urljoin Crawler_page_handler
      3 (mkCrawler None 3 true) "http://hej.sk/" false world0
    = Some (Ok (3, 0, ["http://hej.sk/"; "http://hej.sk/b"; "http://hej.sk/c"]), w')
    ∧ log w' = log world0 ++
        [(INFO, MsgCrawling "http://hej.sk/"); (INFO, MsgCrawling "http://hej.sk/b");
         (INFO, MsgCrawling "http://hej.sk/c"); (INFO, MsgMaxPages);
         (INFO, MsgSummary 3 0)]
    ∧ (INFO, MsgCrawling "http://hej.sk/d") ∉
        [(INFO, MsgCrawling "http://hej.sk/"); (INFO, MsgCrawling "http://hej.sk/b");
         (INFO, MsgCrawling "http://hej.sk/c"); (INFO, MsgMaxPages);
         (INFO, MsgSummary 3 0)].
Proof.
  apply (breadth_first_until_budget (λ k, Z.of_nat k) (λ _, None) site (list string)
           words_parser id simple_urldefrag simple_netloc simple_urljoin
           (mkCrawler None 3 true) false
           "http://hej.sk/" "http://hej.sk/b" "http://hej.sk/c" "http://hej.sk/d"
           ["http://hej.sk/b"; "http://hej.sk/c"] ["http://hej.sk/d"] [] world0 3).
  - reflexivity.
  - reflexivity.
  - intros k. eexists _, _. vm_compute. repeat split.
  - intros k. eexists _, _. vm_compute. repeat split.
  - intros k. eexists _, _. vm_compute. repeat split.
  - vm_compute. reflexivity.
  - vm_compute. reflexivity.
  - vm_compute. reflexivity.
  - vm_compute. reflexivity.
  - vm_compute. reflexivity.
  - intros Hin. apply list_elem_of_In in Hin. simpl in Hin.
    destruct Hin as [Hin|[Hin|[Hin|[]]]]; discriminate Hin.
  - lia.
Defined.

(** The same run with a cache that is in use and empty: every page is
    fetched and stored, and the order is the same. *)
Example breadth_first_cold_cache :
  ∃ w',
    crawl_run (λ k, Z.of_nat k) (λ _, None) site (list string) words_parser id
      simple_urldefrag simple_netloc simple_urljoin Crawler_page_handler
      3 (mkCrawler (Some 7) 3 true) "http://hej.sk/" false world0
    = Some (Ok (3, 0, ["http://hej.sk/"; "http://hej.sk/b"; "http://hej.sk/c"]), w')
    ∧ r_url <$> db w' = ["http://hej.sk/"; "http://hej.sk/b"; "http://hej.sk/c"].
Proof. eexists. split; vm_compute; reflexivity. Qed.

(** C9.  Whatever the collaborators do, and for any page handler that
    returns or raises, [crawl] comes back with [None] once the loop has
    fuel enough, and never with an exception: either its body ran to the
    end, or the body raised some [e] at some point, the run ended there,
    and the only trace is a debug record. *)
Theorem crawl_never_raises
    (now : nat → Z) (sql_fault : nat → option exn)
    (sess_get : nat → string → result response)
    (Soup : Type) (html_parser : string → result Soup)
    (select_a_href : Soup → list string)
    (urldefrag netloc : string → string) (urljoin : string → string → string)
    (page_handler : string → Soup → M unit)
    (self : crawler) (start_page : string) (no_cache : bool) (w : world) :
  (∀ url soup, total (page_handler url soup)) →
  ∃ fuel0, ∀ fuel, (fuel0 ≤ fuel)%nat →
    (∃ w1,
       crawl_body now sql_fault sess_get Soup html_parser select_a_href urldefrag
         netloc urljoin page_handler fuel self start_page no_cache w
       = Some (Ok None, w1)
       ∧ crawl now sql_fault sess_get Soup html_parser select_a_href urldefrag
           netloc urljoin page_handler fuel self start_page no_cache w
         = Some (Ok None, w1))
    ∨ (∃ e w1,
         crawl_body now sql_fault sess_get Soup html_parser select_a_href urldefrag
           netloc urljoin page_handler fuel self start_page no_cache w
         = Some (Raise e, w1)
         ∧ crawl now sql_fault sess_get Soup html_parser select_a_href urldefrag
             netloc urljoin page_handler fuel self start_page no_cache w
           = Some (Ok None,
                   mkWorld (tick w1) (db w1) (fs w1)
                     (log w1 ++ [(DEBUG, MsgSafeFunc e)]))).
Proof.
  intros Hhandler.
  destruct (crawl_loop_stops now sql_fault sess_get Soup html_parser select_a_href
              urldefrag netloc urljoin page_handler self
              (crawl_domain netloc self start_page) no_cache Hhandler
              (Z.to_nat (max_pages self - 0)) [start_page] 0 0 [] w ltac:(lia))
    as (fuel0 & r & Hr).
  exists fuel0. intros fuel Hfuel.
  pose proof (crawl_loop_fuel _ _ _ _ _ _ _ _ _ _ _ _ _ _ _ _ _ _ _ _ _ Hr Hfuel) as Hrun.
  unfold crawl, safe_func, try_except, crawl_body, crawl_run, bind.
  rewrite Hrun.
  destruct r as [[[[pages failed] crawled]|e] w1].
  - left. eexists. split; reflexivity.
  - right. exists e, w1. split; reflexivity.
Qed.

Lemma crawl_never_raises_witness :
  ∃ fuel0, ∀ fuel, (fuel0 ≤ fuel)%nat →
    (∃ w1,
       crawl_body (λ k, Z.of_nat k) (λ _, None) site_bad_tls (list string) words_parser id
         simple_urldefrag simple_netloc simple_urljoin Crawler_page_handler
         fuel (mkCrawler (Some 7) 50 true) "http://hej.sk/" false world0
       = Some (Ok None, w1)
       ∧ crawl (λ k, Z.of_nat k) (λ _, None) site_bad_tls (list string) words_parser id
           simple_urldefrag simple_netloc simple_urljoin Crawler_page_handler
           fuel (mkCrawler (Some 7) 50 true) "http://hej.sk/" false world0
         = Some (Ok None, w1))
    ∨ (∃ e w1,
         crawl_body (λ k, Z.of_nat k) (λ _, None) site_bad_tls (list string) words_parser id
           simple_urldefrag simple_netloc simple_urljoin Crawler_page_handler
           fuel (mkCrawler (Some 7) 50 true) "http://hej.sk/" false world0
         = Some (Raise e, w1)
         ∧ crawl (λ k, Z.of_nat k) (λ _, None) site_bad_tls (list string) words_parser id
             simple_urldefrag simple_netloc simple_urljoin Crawler_page_handler
             fuel (mkCrawler (Some 7) 50 true) "http://hej.sk/" false world0
           = Some (Ok None,
                   mkWorld (tick w1) (db w1) (fs w1)
                     (log w1 ++ [(DEBUG, MsgSafeFunc e)]))).
Proof.
  apply crawl_never_raises.
  intros url soup w. unfold Crawler_page_handler, logging. by eexists.
Defined.

(* ===================================================================== *)
(** * Further properties of the URL helpers *)
(* ===================================================================== *)

Lemma prefix_nil (s : string) : String.prefix EmptyString s = true.
Proof. by destruct s. Qed.

Lemma prefix_app (p s : string) : String.prefix p (p +:+ s) = true.
Proof.
  induction p as [|c p IH]; [apply prefix_nil|].
  rewrite string_app_cons. simpl. by destruct (ascii_dec c c).
Qed.

Lemma prefix_app_cancel (p q s : string) :
  String.prefix (p +:+ q) (p +:+ s) = String.prefix q s.
Proof.
  induction p as [|c p IH]; [done|].
  rewrite !string_app_cons. simpl. by destruct (ascii_dec c c).
Qed.

Lemma prefix_split (p s : string) :
  String.prefix p s = true → s = p +:+ str_drop (String.length p) s.
Proof.
  revert s. induction p as [|c p IH]; intros s H; [done|].
  destruct s as [|c' s]; [done|]. simpl in H.
  destruct (ascii_dec c c') as [->|]; [|done].
  rewrite string_app_cons. simpl. f_equal. by apply IH.
Qed.

Lemma str_drop_app (p s : string) : str_drop (String.length p) (p +:+ s) = s.
Proof.
  induction p as [|c p IH]; [by destruct s|]. by rewrite string_app_cons.
Qed.

Lemma str_contains_cons old c s :
  str_contains old (String c s) = String.prefix old (String c s) || str_contains old s.
Proof. reflexivity. Qed.

(** Without an occurrence, [replace] changes nothing. *)
Lemma str_replace_absent old new s :
  str_contains old s = false → str_replace old new s = s.
Proof.
  unfold str_replace. induction s as [|c s IH]; intros H; [done|].
  rewrite str_contains_cons in H. apply orb_false_iff in H as [Hp Hc].
  cbn [str_replace_go]. rewrite Hp. f_equal. by apply IH.
Qed.

Lemma str_replace_go_skip old new p s :
  str_replace_go old new (String.length p) (p +:+ s) = str_replace_go old new 0 s.
Proof.
  induction p as [|c p IH]; [done|]. rewrite string_app_cons. simpl. apply IH.
Qed.

(** A leading occurrence is replaced and the scan goes on behind it. *)
Lemma str_replace_leading c old new s :
  str_replace (String c old) new (String c old +:+ s)
  = new +:+ str_replace (String c old) new s.
Proof.
  unfold str_replace. rewrite string_app_cons. cbn [str_replace_go].
  rewrite <- string_app_cons, prefix_app. f_equal.
  cbn [String.length]. rewrite Nat.sub_1_r. cbn [Nat.pred].
  apply str_replace_go_skip.
Qed.

(** X1.  A URL whose text contains no ["https://"] (or no ["http://"]),
    as any ordinary URL with a single scheme does, is found in every
    list that holds it. *)
Theorem url_in_list_finds_member (url : string) (listobj : list string) :
  str_contains "https://" url = false ∨ str_contains "http://" url = false →
  url ∈ listobj →
  url_in_list url listobj = true.
Proof.
  intros Hplain Hin. unfold url_in_list, py_in.
  destruct Hplain as [H|H]; rewrite (str_replace_absent _ _ _ H).
  - by rewrite (bool_decide_true _ Hin).
  - rewrite (bool_decide_true _ Hin). apply orb_true_r.
Qed.

Lemma url_in_list_finds_member_witness :
  url_in_list "http://hej.sk/a" ["http://hej.sk/"; "http://hej.sk/a"] = true.
Proof.
  apply url_in_list_finds_member.
  - left. vm_compute. reflexivity.
  - set_solver.
Defined.

(** X2.  For a remainder that itself carries no scheme text, the
    [https] URL is found when the list holds its [http] variant, and
    the other way round. *)
Theorem url_in_list_finds_scheme_variant (rest : string) (listobj : list string) :
  str_contains "https://" rest = false →
  str_contains "http://" rest = false →
  (("http://" +:+ rest) ∈ listobj → url_in_list ("https://" +:+ rest) listobj = true)
  ∧ (("https://" +:+ rest) ∈ listobj → url_in_list ("http://" +:+ rest) listobj = true).
Proof.
  intros Hs Hp. split; intros Hin; unfold url_in_list, py_in.
  - rewrite (str_replace_leading "h" "ttps://"), (str_replace_absent _ _ _ Hs).
    by rewrite (bool_decide_true _ Hin).
  - rewrite (str_replace_leading "h" "ttp://" "https://"), (str_replace_absent _ _ _ Hp).
    rewrite (bool_decide_true _ Hin). apply orb_true_r.
Qed.

Lemma url_in_list_finds_scheme_variant_witness :
  (("http://" +:+ "hej.sk/a") ∈ ["http://hej.sk/a"] →
     url_in_list ("https://" +:+ "hej.sk/a") ["http://hej.sk/a"] = true)
  ∧ (("https://" +:+ "hej.sk/a") ∈ ["http://hej.sk/a"] →
     url_in_list ("http://" +:+ "hej.sk/a") ["http://hej.sk/a"] = true).
Proof.
  apply (url_in_list_finds_scheme_variant "hej.sk/a" ["http://hej.sk/a"]).
  - vm_compute. reflexivity.
  - vm_compute. reflexivity.
Defined.

Lemma str_split_nonempty sep s : str_split sep s ≠ [].
Proof.
  destruct s as [|c s]; [done|]. simpl.
  destruct (Ascii.eqb c sep); [done|]. by destruct (str_split sep s).
Qed.

Lemma str_split_app sep a b :
  str_split sep (a +:+ String sep b) = str_split sep a ++ str_split sep b.
Proof.
  induction a as [|c a IH].
  - rewrite string_app_nil. simpl. by rewrite Ascii.eqb_refl.
  - rewrite string_app_cons. simpl. rewrite IH.
    destruct (Ascii.eqb c sep); [done|].
    pose proof (str_split_nonempty sep a). by destruct (str_split sep a).
Qed.

Lemma prefix_char c c' s :
  String.prefix (String c EmptyString) (String c' s)
  = if ascii_dec c c' then true else false.
Proof. simpl. destruct (ascii_dec c c'); [apply prefix_nil | done]. Qed.

Lemma str_split_dotted s :
  str_contains "." s = true → (2 ≤ length (str_split "." s))%nat.
Proof.
  induction s as [|c s IH]; intros H; [done|].
  rewrite str_contains_cons, prefix_char in H. cbn [str_split].
  pose proof (str_split_nonempty "." s) as Hne.
  destruct (ascii_dec "." c) as [<-|Hc].
  - rewrite Ascii.eqb_refl. destruct (str_split "." s); [done | simpl; lia].
  - destruct (Ascii.eqb c ".") eqn:Heq.
    { apply Ascii.eqb_eq in Heq. congruence. }
    specialize (IH H). destruct (str_split "." s); simpl in *; lia.
Qed.

Lemma str_lower_app a b : str_lower (a +:+ b) = str_lower a +:+ str_lower b.
Proof.
  induction a as [|c a IH]; [done|].
  rewrite string_app_cons. simpl. by rewrite IH, string_app_cons.
Qed.

Lemma ascii_lower_dot c : ascii_lower c = "."%char ↔ c = "."%char.
Proof.
  destruct c as [[] [] [] [] [] [] [] []]; vm_compute; split; intros H;
    first [reflexivity | discriminate H].
Qed.

Lemma str_contains_dot_lower s :
  str_contains "." (str_lower s) = str_contains "." s.
Proof.
  induction s as [|c s IH]; [done|].
  cbn [str_lower]. rewrite !str_contains_cons, IH, !prefix_char. f_equal.
  destruct (ascii_dec "." (ascii_lower c)) as [H1|H1];
    destruct (ascii_dec "." c) as [H2|H2]; try done.
  - symmetry in H1. apply (proj1 (ascii_lower_dot c)) in H1. by subst c.
  - subst c. by vm_compute in H1.
Qed.

(** The last two pieces of a list behind any other list. *)
Lemma last_app_two {A} (l1 l2 : list A) d :
  (2 ≤ length l2)%nat →
  List.last (l1 ++ l2) d = List.last l2 d
  ∧ match List.rev (l1 ++ l2) with _ :: p :: _ => Some p | _ => None end
    = match List.rev l2 with _ :: p :: _ => Some p | _ => None end.
Proof.
  intros Hlen. split.
  - induction l1 as [|a l1 IH]; [done|]. simpl.
    destruct (l1 ++ l2) eqn:Happ; [|done].
    apply app_eq_nil in Happ as [_ ->]. simpl in Hlen. lia.
  - rewrite rev_app_distr.
    assert (2 ≤ length (List.rev l2))%nat as Hrev by by rewrite length_rev.
    destruct (List.rev l2) as [|x [|y r]]; simpl in *; try lia. done.
Qed.

Lemma last_two_labels_subdomain sub d :
  str_contains "." d = true →
  last_two_labels (sub +:+ "." +:+ d) = last_two_labels d.
Proof.
  intros Hdot.
  assert (str_contains "." (str_lower d) = true) as Hd
    by by rewrite str_contains_dot_lower.
  assert (str_contains "." (str_lower (sub +:+ "." +:+ d)) = true) as Hsub.
  { rewrite str_contains_dot_lower. clear.
    induction sub as [|c sub IH].
    - rewrite string_app_nil. rewrite string_app_cons, str_contains_cons, prefix_char.
      by destruct (ascii_dec "." ".").
    - rewrite string_app_cons, str_contains_cons, IH. apply orb_true_r. }
  unfold last_two_labels. cbv zeta. rewrite Hd, Hsub.
  rewrite !str_lower_app.
  change (str_lower ".") with ".".
  rewrite (string_app_cons "." EmptyString), string_app_nil.
  unfold split_last, split_last2. rewrite str_split_app.
  destruct (last_app_two (str_split "." (str_lower sub))
              (str_split "." (str_lower d)) EmptyString) as [-> ->].
  - by apply str_split_dotted.
  - pose proof (str_split_dotted _ Hd) as Hlen. rewrite <- length_rev in Hlen.
    destruct (List.rev (str_split "." (str_lower d))) as [|x [|y r]];
      simpl in Hlen; try lia. done.
Qed.



(* ===================================================================== *)
(** * Further properties of the content store and the image download *)
(* ===================================================================== *)

(** X4.  [write_to_file] returns for every payload, name and directory,
    every file that was there keeps its content, and at most one file
    is added. *)
Theorem write_to_file_keeps_existing_files
    (sha1_hexdigest : list Byte.byte → string) (data : list Byte.byte)
    (file_name : string) (files : gmap string (list Byte.byte)) :
  ∃ r files',
    write_to_file sha1_hexdigest data file_name files = Some (r, files')
    ∧ (∀ name old, files !! name = Some old → files' !! name = Some old)
    ∧ (size files' ≤ S (size files))%nat.
Proof.
  destruct (write_to_file_is_Some sha1_hexdigest data file_name files) as [[r files'] H].
  exists r, files'. split; [done|]. split.
  - intros name old Hold. eapply lookup_weaken; [done|].
    by eapply write_to_file_loop_extends.
  - apply write_to_file_loop_outcome in H. destruct r as [[n|n]|e].
    + destruct H as [Hn ->]. by rewrite map_size_insert_None.
    + destruct H as [_ ->]. lia.
    + destruct H as (_ & _ & ->). lia.
Qed.

Lemma string_app_assoc (a b c : string) : (a +:+ b) +:+ c = a +:+ b +:+ c.
Proof.
  induction a as [|x a IH]; [done|]. by rewrite !string_app_cons, IH.
Qed.

Lemma string_app_nil_r (a : string) : a +:+ EmptyString = a.
Proof. induction a as [|x a IH]; [done|]. by rewrite string_app_cons, IH. Qed.

Lemma string_rev_app_spec (a b : string) : String.rev_app a b = String.rev a +:+ b.
Proof.
  revert b. induction a as [|x a IH]; intros b; [done|].
  unfold String.rev. cbn [String.rev_app]. rewrite IH, (IH (String x EmptyString)).
  by rewrite string_app_assoc.
Qed.

Lemma string_rev_cons x (a : string) :
  String.rev (String x a) = String.rev a +:+ String x EmptyString.
Proof. unfold String.rev at 1. cbn [String.rev_app]. apply string_rev_app_spec. Qed.

Lemma string_rev_app (a b : string) :
  String.rev (a +:+ b) = String.rev b +:+ String.rev a.
Proof.
  induction a as [|x a IH]; [by rewrite string_app_nil, string_app_nil_r|].
  by rewrite string_app_cons, !string_rev_cons, IH, string_app_assoc.
Qed.

Lemma string_rev_involutive (a : string) : String.rev (String.rev a) = a.
Proof.
  induction a as [|x a IH]; [done|].
  by rewrite string_rev_cons, string_rev_app, IH.
Qed.

(** [s.endswith(p)] holds exactly when [s] is some text followed by [p]. *)
Lemma endswith_app (a p : string) : endswith (a +:+ p) p = true.
Proof. unfold endswith. rewrite string_rev_app. apply prefix_app. Qed.

Lemma endswith_split (s p : string) : endswith s p = true → ∃ a, s = a +:+ p.
Proof.
  unfold endswith. intros H. apply prefix_split in H.
  exists (String.rev (str_drop (String.length (String.rev p)) (String.rev s))).
  rewrite <- (string_rev_involutive s) at 1. rewrite H at 1.
  by rewrite string_rev_app, string_rev_involutive.
Qed.

Lemma str_rsplit1_app sep stem suffix :
  str_rsplit1 sep suffix = None →
  str_rsplit1 sep (stem +:+ String sep suffix) = Some (stem, suffix).
Proof.
  intros Hsuffix. induction stem as [|c stem IH].
  - rewrite string_app_nil. cbn [str_rsplit1]. by rewrite Hsuffix, Ascii.eqb_refl.
  - rewrite string_app_cons. cbn [str_rsplit1]. by rewrite IH.
Qed.

(** A name with one of the image suffixes splits at that suffix. *)
Lemma image_suffix_split (file_name : string) :
  endswith_any file_name suffix_list = true →
  ∃ stem ext, image_ext ext
    ∧ file_name = stem +:+ String "." ext
    ∧ str_rsplit1 "." file_name = Some (stem, ext).
Proof.
  unfold endswith_any. intros H. apply existsb_exists in H as (p & Hp & Hends).
  apply endswith_split in Hends as [stem ->].
  apply list_elem_of_In in Hp. unfold suffix_list in Hp.
  repeat (apply elem_of_cons in Hp as [->|Hp];
          [eexists stem, _; split; [|split; [reflexivity|]];
           [apply list_elem_of_In; simpl; tauto | by apply str_rsplit1_app]|]).
  by apply elem_of_nil in Hp.
Qed.

Lemma counter_name_image_suffix stem count ext :
  image_ext ext →
  endswith_any (counter_name stem count ext) suffix_list = true.
Proof.
  intros Hext. unfold counter_name, endswith_any.
  apply existsb_exists. exists (String "." ext). split.
  - apply list_elem_of_In in Hext. simpl in Hext. simpl.
    intuition (subst; auto 10).
  - rewrite <- !string_app_assoc.
    change ("." +:+ ext) with (String "." ext).
    rewrite (string_app_assoc _ "." ext).
    change ("." +:+ ext) with (String "." ext). apply endswith_app.
Qed.

Section ImageFacts.
Variable sess_get : nat → string → result response.
Variable sha1_hexdigest : list Byte.byte → string.
Variable urlsplit_path : string → string.
Variable path_images : string.

(** What the call inside the world does to it. *)
Lemma write_to_file_M_inv data file_name w :
  ∃ r r0 w',
    write_to_file_M sha1_hexdigest data file_name w = Some (r, w')
    ∧ write_to_file sha1_hexdigest data file_name (fs w) = Some (r0, fs w')
    ∧ tick w' = tick w ∧ db w' = db w.
Proof.
  unfold write_to_file_M.
  destruct (write_to_file_is_Some sha1_hexdigest data file_name (fs w))
    as [[r0 files'] ->].
  destruct r0 as [[n|n]|e]; by eexists _, _, _.
Qed.

(** What one download does, by the answer to its request. *)
Lemma download_image_cases img_url w :
  let file_name := image_file_name urlsplit_path path_images img_url in
  ∃ r w',
    download_image sess_get sha1_hexdigest urlsplit_path path_images img_url w
    = Some (r, w')
    ∧ tick w' = S (tick w) ∧ db w' = db w
    ∧ (fs w' = fs w
       ∨ ∃ i r0, sess_get (tick w) img_url = Ok i
           ∧ endswith_any file_name suffix_list = true
           ∧ status_code i = 200
           ∧ write_to_file sha1_hexdigest (content i) file_name (fs w)
             = Some (r0, fs w')).
Proof.
  intros file_name. unfold download_image, bind, next_tick. cbv beta iota.
  fold file_name. cbn [tick].
  destruct (sess_get (tick w) img_url) as [i|e] eqn:Hget.
  - destruct (endswith_any file_name suffix_list) eqn:Hsuffix; cbn [andb].
    + destruct (status_code i =? 200) eqn:Hstatus.
      * apply Z.eqb_eq in Hstatus.
        destruct (write_to_file_M_inv (content i) file_name
                    (mkWorld (S (tick w)) (db w) (fs w) (log w)))
          as (r & r0 & w' & -> & Hwrite & Htick & Hdb).
        exists r, w'. split; [done|]. split; [done|]. split; [done|].
        right. by exists i, r0.
      * unfold logging. cbn. eexists _, _. split; [done|]. by auto.
    + unfold logging. cbn. eexists _, _. split; [done|]. by auto.
  - destruct e; unfold logging, raise; cbn; eexists _, _; split; try done; by auto.
Qed.


(** X6.  Whatever file a download adds, its name ends with one of the
    suffixes of [suffix_list] and its content is the body of a response
    with status 200. *)
Theorem download_image_adds_only_images (img_url : string) (w : world) :
  ∃ r w',
    download_image sess_get sha1_hexdigest urlsplit_path path_images img_url w
    = Some (r, w')
    ∧ ∀ name data, fs w !! name = None → fs w' !! name = Some data →
        endswith_any name suffix_list = true
        ∧ ∃ i, sess_get (tick w) img_url = Ok i
               ∧ status_code i = 200 ∧ data = content i.
Proof.
  destruct (download_image_cases img_url w) as (r & w' & Hrun & _ & _ & Hfs).
  exists r, w'. split; [done|]. intros name data Hnone Hsome.
  destruct Hfs as [Heq|(i & r0 & Hget & Hsuffix & Hstatus & Hwrite)].
  { rewrite Heq in Hsome. congruence. }
  pose proof (write_to_file_loop_outcome _ _ _ _ _ _ _ _ _ Hwrite) as Hout.
  destruct r0 as [[n|n]|e].
  - destruct Hout as [Hn Hfs']. rewrite Hfs' in Hsome.
    destruct (decide (n = name)) as [->|Hne].
    + rewrite lookup_insert_eq in Hsome. injection Hsome as <-.
      split; [|by exists i].
      destruct (image_suffix_split _ Hsuffix) as (stem & ext & Hext & _ & Hsplit).
      destruct (write_to_file_loop_name _ _ _ _ _ _ _ _ _ _ _ Hsplit Hwrite)
        as [Hname | (k & _ & Hname)]; simpl in Hname; subst name; [done|].
      by apply counter_name_image_suffix.
    + rewrite lookup_insert_ne in Hsome by done. congruence.
  - destruct Hout as [_ Hfs']. rewrite Hfs' in Hsome. congruence.
  - destruct Hout as (_ & _ & Hfs'). rewrite Hfs' in Hsome. congruence.
Qed.
End ImageFacts.

(* ===================================================================== *)
(** * Properties of the path helpers of basic_functions.py *)
(* ===================================================================== *)

Lemma new_path_loop_spec (existing : gset string) path suffixes :
  match new_path_loop existing path suffixes with
  | Ok r =>
      (r ∉ existing)
      ∧ ∃ pre s post, suffixes = pre ++ s :: post ∧ r = path +:+ s
          ∧ ∀ s', s' ∈ pre → path +:+ s' ∈ existing
  | Raise e => e = ValueError ∧ ∀ s, s ∈ suffixes → path +:+ s ∈ existing
  end.
Proof.
  induction suffixes as [|s suffixes IH]; simpl.
  - split; [done|]. intros s Hs. by apply elem_of_nil in Hs.
  - case_bool_decide as Hs; simpl.
    + destruct (new_path_loop existing path suffixes) as [r|e].
      * destruct IH as (Hr & pre & s0 & post & -> & -> & Hpre).
        split; [done|]. exists (s :: pre), s0, post. split; [done|]. split; [done|].
        intros s' [->|Hs']%elem_of_cons; auto.
      * destruct IH as [-> Hall]. split; [done|].
        intros s' [->|Hs']%elem_of_cons; auto.
    + split; [done|]. exists [], s, suffixes. split; [done|]. split; [done|].
      intros s' Hs'. by apply elem_of_nil in Hs'.
Qed.

(** X7.  [new_path] answers with a path that does not exist: [path]
    itself, or else [path] with the first suffix of the iterable whose
    path is free (every earlier suffix is taken); it raises [ValueError]
    exactly when [path] and the paths of all suffixes exist. *)
Theorem new_path_first_free (existing : gset string) (path : string)
    (suffixes : list string) :
  match new_path existing path suffixes with
  | Ok r =>
      (r ∉ existing)
      ∧ (r = path
         ∨ path ∈ existing
           ∧ ∃ pre s post, suffixes = pre ++ s :: post ∧ r = path +:+ s
               ∧ ∀ s', s' ∈ pre → path +:+ s' ∈ existing)
  | Raise e =>
      e = ValueError ∧ path ∈ existing
      ∧ ∀ s, s ∈ suffixes → path +:+ s ∈ existing
  end.
Proof.
  unfold new_path. case_bool_decide as Hpath; simpl.
  - pose proof (new_path_loop_spec existing path suffixes) as Hloop.
    destruct (new_path_loop existing path suffixes) as [r|e].
    + destruct Hloop as [Hr Hfirst]. auto.
    + destruct Hloop as [-> Hall]. auto.
  - auto.
Qed.

(** X8.  With the default suffixes 0..999 and fewer than 1000 existing
    paths, [new_path] never raises. *)
Theorem new_path_default_succeeds (existing : gset string) (path : string) :
  (size existing < 1000)%nat →
  ∃ r, new_path existing path range_1000 = Ok r ∧ r ∉ existing.
Proof.
  intros Hsize. unfold new_path. case_bool_decide as Hpath; cbn [negb]; [|by exists path].
  pose proof (new_path_loop_spec existing path range_1000) as H.
  destruct (new_path_loop existing path range_1000) as [r|e].
  - exists r. split; [done | by destruct H].
  - exfalso. destruct H as (_ & Hall).
    set (names := (λ k : nat, path +:+ pretty k) <$> seq 0 1000).
    assert (NoDup names) as Hnd.
    { apply NoDup_fmap_2_strong; [|apply NoDup_seq].
      intros x y _ _ Hxy. apply (inj (String.app path)) in Hxy.
      by apply (inj pretty) in Hxy. }
    assert (list_to_set names ⊆ existing) as Hsub.
    { intros n Hn. apply elem_of_list_to_set, list_elem_of_fmap in Hn as (k & -> & Hk).
      apply Hall. unfold range_1000. apply list_elem_of_fmap. by exists k. }
    apply subseteq_size in Hsub. rewrite size_list_to_set in Hsub by done.
    unfold names in Hsub. rewrite length_fmap, length_seq in Hsub. lia.
Qed.

Lemma new_path_default_succeeds_witness :
  ∃ r, new_path {[ "backup"; "backup0" ]} "backup" range_1000 = Ok r
       ∧ r ∉ ({[ "backup"; "backup0" ]} : gset string).
Proof.
  apply new_path_default_succeeds.
  rewrite size_union, !size_singleton; [lia | set_solver].
Defined.

Example new_path_numbered :
  new_path {[ "backup"; "backup0" ]} "backup" range_1000 = Ok "backup1".
Proof. vm_compute. reflexivity. Qed.

Lemma prefix_app_l (p q s : string) :
  String.prefix (p +:+ q) s = true → String.prefix p s = true.
Proof.
  revert s. induction p as [|c p IH]; intros s H; [apply prefix_nil|].
  destruct s as [|c' s]; [done|]. rewrite string_app_cons in H. simpl in *.
  destruct (ascii_dec c c'); [by apply IH | done].
Qed.

(** X9.  [remove_unc_prefix] undoes [get_unc_path]: for a non-empty
    path whose absolute form (the path itself off Windows) does not
    already begin with the long-path prefix, and on Windows does not
    begin with [UNC] and a backslash unless it is a share path, the
    prefixed path is produced and removing the prefix gives the
    absolute form back. *)
Theorem remove_unc_prefix_undoes_get_unc_path (nt : bool)
    (abspath : string → string) (path : string) :
  let full := if nt then abspath path else path in
  path ≠ EmptyString →
  startswith full "\\?\" = false →
  (nt = true → startswith full "\\" = false → startswith full "UNC\" = false) →
  ∃ unc, get_unc_path nt abspath path = Some unc ∧ remove_unc_prefix unc = full.
Proof.
  intros full Hpath Hlong Hunc. unfold get_unc_path.
  rewrite bool_decide_false by done.
  assert (∀ s, startswith s "\\?\" = false → startswith s "\\?\UNC\" = false) as Hshort.
  { intros s Hs. destruct (startswith s "\\?\UNC\") eqn:H; [|done].
    unfold startswith in *.
    change "\\?\UNC\" with ("\\?\" +:+ "UNC\") in H.
    apply prefix_app_l in H. congruence. }
  subst full. destruct nt; cbn [negb] in *; cbv iota in *; cbv zeta.
  - destruct (startswith (abspath path) "\\") eqn:Hshare.
    + rewrite Hlong. eexists. split; [done|]. unfold remove_unc_prefix, startswith.
      rewrite prefix_app.
      change 8%nat with (String.length "\\?\UNC\"). rewrite str_drop_app.
      unfold startswith in Hshare. apply prefix_split in Hshare.
      cbn [String.length] in Hshare. symmetry. exact Hshare.
    + eexists. split; [done|]. unfold remove_unc_prefix, startswith.
      change "\\?\UNC\" with ("\\?\" +:+ "UNC\").
      rewrite prefix_app_cancel.
      unfold startswith in Hunc. rewrite (Hunc eq_refl eq_refl).
      rewrite prefix_app.
      change 4%nat with (String.length "\\?\"). by rewrite str_drop_app.
  - eexists. split; [done|]. unfold remove_unc_prefix.
    by rewrite (Hshort _ Hlong), Hlong.
Qed.

Lemma remove_unc_prefix_undoes_get_unc_path_witness :
  ∃ unc, get_unc_path true (λ p, "\\server\share\" +:+ p) "a.txt" = Some unc
         ∧ remove_unc_prefix unc = "\\server\share\" +:+ "a.txt".
Proof.
  apply (remove_unc_prefix_undoes_get_unc_path true (λ p, "\\server\share\" +:+ p) "a.txt").
  - discriminate.
  - vm_compute. reflexivity.
  - intros _ H. vm_compute in H. discriminate H.
Defined.

Example get_unc_path_values :
  get_unc_path true (λ p, "C:\work\" +:+ p) "a.txt" = Some "\\?\C:\work\a.txt"
  ∧ get_unc_path true (λ p, p) "\\server\share\a.txt" = Some "\\?\UNC\server\share\a.txt"
  ∧ get_unc_path true (λ p, p) "" = None
  ∧ get_unc_path false (λ p, p) "/tmp/a.txt" = Some "/tmp/a.txt"
  ∧ remove_unc_prefix "\\?\UNC\server\share\a.txt" = "\\server\share\a.txt"
  ∧ remove_unc_prefix "\\?\C:\work\a.txt" = "C:\work\a.txt".
Proof. vm_compute. repeat split. Qed.

(* ===================================================================== *)
(** * Further properties of the response cache *)
(* ===================================================================== *)

Lemma sql_select_no_domain url (t : list row) : sql_select None url t = [].
Proof. unfold sql_select. by induction t. Qed.

(** X10.  With [domain] set to [None], as [crawl] does when
    [single_domain] is off, [get] never finds a row, whatever the table
    holds and whatever was stored before: it answers [None] (or raises
    what the database raises) and leaves the table as it is. *)
Theorem cache_get_without_domain_never_hits
    (now : nat → Z) (sql_fault : nat → option exn) (refresh : Z)
    (url : string) (w : world) :
  ∃ r w',
    cache_get now sql_fault refresh None url w = Some (r, w')
    ∧ db w' = db w
    ∧ match sql_fault (tick w) with
      | Some e => r = Raise e
      | None => r = Ok None
      end.
Proof.
  unfold cache_get, bind, sql_execute, bind, next_tick, get_db. cbn -[sql_select].
  destruct (sql_fault (tick w)) as [e|]; cbn -[sql_select].
  - by eexists _, _.
  - rewrite sql_select_no_domain. by eexists _, _.
Qed.

Lemma elem_of_sql_delete d u r (t : list row) :
  r ∈ sql_delete d u t ↔ r ∈ t ∧ row_matches d u r = false.
Proof.
  unfold sql_delete. rewrite !list_elem_of_In, filter_In.
  by rewrite negb_true_iff.
Qed.

Section CacheExpiry.
Variable now : nat → Z.
Variable sql_fault : nat → option exn.
Hypothesis no_fault : ∀ k, sql_fault k = None.

Lemma cache_get_urls_ok domain w :
  cache_get_urls sql_fault domain w
  = Some (Ok (r_url <$> List.filter (λ r,
                 match domain, r_domain r with
                 | Some d, Some d' => bool_decide (d = d')
                 | _, _ => false
                 end) (db w)),
          mkWorld (S (tick w)) (db w) (fs w) (log w)).
Proof.
  unfold cache_get_urls, bind, sql_execute, bind, next_tick, get_db, ret. cbn.
  by rewrite no_fault.
Qed.

End CacheExpiry.


(* ===================================================================== *)
(** * Further properties of the traversal *)
(* ===================================================================== *)

Lemma get_html_served sess_get url resp ct w :
  sess_get (tick w) url = Ok resp →
  content_type resp = Some ct →
  startswith ct "text/html" = true →
  get_html sess_get url w
  = Some (Ok (Some (text resp)), mkWorld (S (tick w)) (db w) (fs w) (log w)).
Proof.
  intros Hget Hct Hhtml. unfold get_html, bind, next_tick. cbn.
  by rewrite Hget, Hct, Hhtml.
Qed.

Lemma truthy_nonempty t : t ≠ EmptyString → truthy (Some t) = true.
Proof. by destruct t. Qed.

Section WarmCache.
Variable now : nat → Z.
Variable sql_fault : nat → option exn.
Variable Soup : Type.
Variable html_parser : string → result Soup.
Variable self : crawler.
Variable refresh : Z.
Hypothesis no_fault : ∀ k, sql_fault k = None.
Hypothesis has_cache : cache self = Some refresh.

Lemma cache_get_miss domain url w :
  sql_select domain url (db w) = [] →
  cache_get now sql_fault refresh domain url w
  = Some (Ok None, mkWorld (S (tick w)) (db w) (fs w) (log w)).
Proof.
  intros Hsel. unfold cache_get, bind, sql_execute, bind, next_tick, get_db.
  cbn -[sql_select]. rewrite no_fault. cbn -[sql_select]. by rewrite Hsel.
Qed.

End WarmCache.


Lemma plain_url_in_list (url : string) (listobj : list string) :
  plain_url url → url ∈ listobj → url_in_list url listobj = true.
Proof.
  intros Hplain Hin. unfold url_in_list, py_in.
  destruct Hplain as [H|H]; rewrite (str_replace_absent _ _ _ H).
  - by rewrite (bool_decide_true _ Hin).
  - rewrite (bool_decide_true _ Hin). apply orb_true_r.
Qed.

Lemma enqueue_links_elem links crawled page_queue x :
  x ∈ enqueue_links links crawled page_queue → x ∈ page_queue ∨ x ∈ links.
Proof.
  revert page_queue. induction links as [|link links IH]; intros page_queue Hx; simpl in Hx.
  - by left.
  - destruct (_ && _).
    + apply IH in Hx as [Hx|Hx]; [|right; by right].
      apply elem_of_app in Hx as [Hx|Hx]; [by left|].
      apply list_elem_of_singleton in Hx as ->. right. by left.
    + apply IH in Hx as [Hx|Hx]; [by left | right; by right].
Qed.

Lemma enqueue_links_prefix links crawled page_queue :
  page_queue `prefix_of` enqueue_links links crawled page_queue.
Proof.
  revert page_queue. induction links as [|link links IH]; intros page_queue; simpl.
  - done.
  - destruct (_ && _); [|apply IH].
    etrans; [|apply IH]. by apply prefix_app_r.
Qed.

Lemma enqueue_links_distinct (links crawled page_queue : list string) :
  (∀ x, x ∈ links → plain_url x) →
  NoDup page_queue →
  (∀ x, x ∈ page_queue → x ∉ crawled) →
  NoDup (enqueue_links links crawled page_queue)
  ∧ (∀ x, x ∈ enqueue_links links crawled page_queue → x ∉ crawled).
Proof.
  revert page_queue.
  induction links as [|link links IH]; intros page_queue Hplain Hnd Hdisj; simpl; [done|].
  assert (∀ x, x ∈ links → plain_url x) as Hplain' by (intros; apply Hplain; by right).
  assert (plain_url link) as Hlink by (apply Hplain; by left).
  destruct (negb (url_in_list link crawled) && negb (url_in_list link page_queue))
    eqn:Hnew; [|by apply IH].
  apply andb_true_iff in Hnew as [Hc%negb_true_iff Hq%negb_true_iff].
  apply IH; [done | |].
  - apply NoDup_app. split; [done|]. split; [|apply NoDup_singleton].
    intros x Hx Hx'%list_elem_of_singleton. subst x.
    by rewrite (plain_url_in_list link page_queue) in Hq.
  - intros x [Hx | Hx%list_elem_of_singleton]%elem_of_app; [by apply Hdisj|].
    subst x. intros Hin. by rewrite (plain_url_in_list link crawled) in Hc.
Qed.



Section CrawlInvariants.
Variable now : nat → Z.
Variable sql_fault : nat → option exn.
Variable sess_get : nat → string → result response.
Variable Soup : Type.
Variable html_parser : string → result Soup.
Variable select_a_href : Soup → list string.
Variable urldefrag : string → string.
Variable netloc : string → string.
Variable urljoin : string → string → string.
Variable page_handler : string → Soup → M unit.
Variable self : crawler.
Variable domain : option string.
Variable no_cache : bool.

Local Abbreviation get := (Crawler_get now sql_fault sess_get Soup html_parser
                             self domain no_cache).
Local Abbreviation links_of := (get_links Soup select_a_href urldefrag netloc urljoin domain).
Local Abbreviation loop := (crawl_loop now sql_fault sess_get Soup html_parser
                              select_a_href urldefrag netloc urljoin page_handler
                              self domain no_cache).

(** A property of the crawled pages and the frontier that every turn of
    the loop keeps holds when the loop ends; [Q] is what is known of the
    pages [get] hands out. *)
Lemma crawl_loop_invariant (Q : string → Soup → Prop)
    (Inv : list string → list string → Prop) :
  (∀ url w soup w1, get url w = Some (Ok soup, w1) → Q url soup) →
  (∀ crawled url page_queue soup,
     Q url soup → Inv crawled (url :: page_queue) →
     Inv (crawled ++ [url])
       (enqueue_links (links_of url soup) (crawled ++ [url]) page_queue)) →
  (∀ crawled url page_queue, Inv crawled (url :: page_queue) → Inv crawled page_queue) →
  ∀ fuel pages failed crawled page_queue w pages' failed' crawled' w',
    Inv crawled page_queue →
    loop fuel pages failed crawled page_queue w = Some (Ok (pages', failed', crawled'), w') →
    ∃ frontier, Inv crawled' frontier.
Proof.
  intros HQ Hhandled Hfailed fuel.
  induction fuel as [|fuel IH];
    intros pages failed crawled page_queue w pages' failed' crawled' w' HI H; [done|].
  destruct page_queue as [|url page_queue].
  { rewrite crawl_loop_nil in H. simplify_eq. eauto. }
  rewrite crawl_loop_S in H.
  destruct (get url w) as [[[soup|e] w1]|] eqn:Hget; [| |done].
  - pose proof (HQ _ _ _ _ Hget) as Hsoup.
    destruct (page_handler url soup w1) as [[[[]|e] w2]|]; [|done|done].
    destruct (max_pages self <=? pages + 1).
    + simplify_eq. eauto.
    + eapply IH; [|exact H]. by apply Hhandled.
  - destruct e; try done. eapply IH; [|exact H]. by eapply Hfailed.
Qed.

(** The counters: [pages] grows by one per page appended to [crawled]
    and stops at the budget, [failed] never shrinks. *)
Lemma crawl_loop_counts fuel pages failed crawled page_queue w pages' failed' crawled' w' :
  loop fuel pages failed crawled page_queue w = Some (Ok (pages', failed', crawled'), w') →
  pages ≤ pages' ≤ Z.max (pages + 1) (max_pages self)
  ∧ failed ≤ failed'
  ∧ ∃ new, crawled' = crawled ++ new ∧ Z.of_nat (length new) = pages' - pages.
Proof.
  revert pages failed crawled page_queue w.
  induction fuel as [|fuel IH]; intros pages failed crawled page_queue w H; [done|].
  destruct page_queue as [|url page_queue].
  { rewrite crawl_loop_nil in H. simplify_eq.
    split; [lia|]. split; [lia|]. exists []. rewrite app_nil_r. split; [done | simpl; lia]. }
  rewrite crawl_loop_S in H.
  destruct (get url w) as [[[soup|e] w1]|] eqn:Hget; [| |done].
  - destruct (page_handler url soup w1) as [[[[]|e] w2]|]; [|done|done].
    destruct (max_pages self <=? pages + 1) eqn:Hmax.
    + simplify_eq. split; [lia|]. split; [lia|]. exists [url]. split; [done | simpl; lia].
    + apply Z.leb_gt in Hmax. apply IH in H as (Hp & Hf & new & -> & Hlen).
      split; [lia|]. split; [lia|]. exists (url :: new).
      rewrite <- app_assoc. split; [done|]. simpl length. lia.
  - destruct e; try done. apply IH in H as (Hp & Hf & new & -> & Hlen).
    split; [lia|]. split; [lia|]. by exists new.
Qed.

(** X13.  A page whose request raises [MissingSchema] or
    [InvalidSchema], or whose content type is not HTML, is skipped: it
    is logged as a warning, [failed] grows by one, [pages] and
    [crawled] stay, and the loop goes on with the rest of the queue. *)
Theorem failed_page_is_counted_and_skipped
    (fuel : nat) (pages failed : Z) (crawled page_queue : list string)
    (url : string) (w : world) :
  is_cacheable self no_cache = false →
  (sess_get (tick w) url = Raise MissingSchema
   ∨ sess_get (tick w) url = Raise InvalidSchema
   ∨ ∃ resp ct, sess_get (tick w) url = Ok resp ∧ content_type resp = Some ct
                ∧ startswith ct "text/html" = false) →
  ∃ msg,
    loop (S fuel) pages failed crawled (url :: page_queue) w
    = loop fuel pages (failed + 1) crawled page_queue
        (mkWorld (S (tick w)) (db w) (fs w) (log w ++ [(WARNING, msg)])).
Proof.
  intros Hunc Hfail. rewrite crawl_loop_S, (Crawler_get_uncached _ _ _ _ _ _ _ _ Hunc).
  unfold bind at 1, get_html, bind at 1, next_tick. cbn [tick].
  destruct Hfail as [-> | [-> | (resp & ct & -> & Hct & Hhtml)]].
  - by exists (MsgFailed MissingSchema).
  - by exists (MsgFailed InvalidSchema).
  - rewrite Hct, Hhtml. by exists (MsgNonHtml url).
Qed.
End CrawlInvariants.

Section CrawlRunFacts.
Variable now : nat → Z.
Variable sql_fault : nat → option exn.
Variable sess_get : nat → string → result response.
Variable Soup : Type.
Variable html_parser : string → result Soup.
Variable select_a_href : Soup → list string.
Variable urldefrag : string → string.
Variable netloc : string → string.
Variable urljoin : string → string → string.
Variable page_handler : string → Soup → M unit.

Local Abbreviation run := (crawl_run now sql_fault sess_get Soup html_parser
                             select_a_href urldefrag netloc urljoin page_handler).

Lemma crawl_run_inv fuel self start_page no_cache w pages failed crawled w' :
  run fuel self start_page no_cache w = Some (Ok (pages, failed, crawled), w') →
  ∃ w1,
    crawl_loop now sql_fault sess_get Soup html_parser select_a_href urldefrag netloc
      urljoin page_handler self (crawl_domain netloc self start_page) no_cache
      fuel 0 0 [] [start_page] w
    = Some (Ok (pages, failed, crawled), w1)
    ∧ w' = mkWorld (tick w1) (db w1) (fs w1) (log w1 ++ [(INFO, MsgSummary pages failed)]).
Proof.
  unfold crawl_run, bind. intros H.
  destruct (crawl_loop _ _ _ _ _ _ _ _ _ _ _ _ _ _ _ _ _ _ _)
    as [[[[[p f] c]|e] w1]|]; [|done|done].
  unfold logging, ret in H. simplify_eq. by eexists.
Qed.

(** X14.  A run that ends normally has handled as many pages as
    [crawled] lists, at most [max_pages] of them (one when [max_pages]
    is below one), and its last log record is the summary with these
    counts. *)
Theorem crawl_stays_within_budget (fuel : nat) (self : crawler)
    (start_page : string) (no_cache : bool) (w w' : world)
    (pages failed : Z) (crawled : list string) :
  run fuel self start_page no_cache w = Some (Ok (pages, failed, crawled), w') →
  pages = Z.of_nat (length crawled)
  ∧ pages ≤ Z.max 1 (max_pages self)
  ∧ 0 ≤ failed
  ∧ ∃ before, log w' = before ++ [(INFO, MsgSummary pages failed)].
Proof.
  intros H. apply crawl_run_inv in H as (w1 & Hloop & ->).
  apply crawl_loop_counts in Hloop as (Hp & Hf & new & Hc & Hlen).
  simpl in Hc. subst new. split; [lia|]. split; [lia|]. split; [lia|].
  by eexists.
Qed.

(** X16.  When no link handed out by [get_links] mixes ["http://"] and
    ["https://"] in its text, no page is handled twice in a run. *)
Theorem crawl_handles_no_page_twice (fuel : nat) (self : crawler)
    (start_page : string) (no_cache : bool) (w w' : world)
    (pages failed : Z) (crawled : list string) :
  (∀ url w0 soup w1,
     Crawler_get now sql_fault sess_get Soup html_parser self
       (crawl_domain netloc self start_page) no_cache url w0 = Some (Ok soup, w1) →
     ∀ x, x ∈ get_links Soup select_a_href urldefrag netloc urljoin
                (crawl_domain netloc self start_page) url soup → plain_url x) →
  run fuel self start_page no_cache w = Some (Ok (pages, failed, crawled), w') →
  NoDup crawled.
Proof.
  intros Hplain H. apply crawl_run_inv in H as (w1 & Hloop & _).
  pose (Inv := λ crawled page_queue : list string,
          NoDup crawled ∧ NoDup page_queue ∧ ∀ x, x ∈ page_queue → x ∉ crawled).
  pose (Q := λ (url : string) (soup : Soup),
          ∀ x, x ∈ get_links Soup select_a_href urldefrag netloc urljoin
                     (crawl_domain netloc self start_page) url soup → plain_url x).
  assert (∀ c url q soup, Q url soup → Inv c (url :: q) →
            Inv (c ++ [url])
              (enqueue_links (get_links Soup select_a_href urldefrag netloc urljoin
                                (crawl_domain netloc self start_page) url soup)
                 (c ++ [url]) q)) as Hhandled.
  { intros c url q soup Hlinks (Hc & Hq & Hdisj).
    apply NoDup_cons in Hq as [Hurl Hq].
    assert (NoDup (c ++ [url])) as Hc'.
    { apply NoDup_app. split; [done|]. split; [|apply NoDup_singleton].
      intros x Hx Hx'%list_elem_of_singleton. subst x.
      apply (Hdisj url); [by left | done]. }
    assert (∀ x, x ∈ q → x ∉ c ++ [url]) as Hdisj'.
    { intros x Hx [Hin | Hin%list_elem_of_singleton]%elem_of_app.
      - apply (Hdisj x); [by right | done].
      - by subst x. }
    split; [done|]. by apply enqueue_links_distinct. }
  assert (∀ c url q, Inv c (url :: q) → Inv c q) as Hfailed.
  { intros c url q (Hc & Hq & Hdisj). apply NoDup_cons in Hq as [_ Hq].
    split; [done|]. split; [done|]. intros x Hx. apply Hdisj. by right. }
  assert (Inv [] [start_page]) as Hinit.
  { split; [apply NoDup_nil_2|]. split; [apply NoDup_singleton|].
    intros x _ Hx. by apply elem_of_nil in Hx. }
  destruct (crawl_loop_invariant now sql_fault sess_get Soup html_parser select_a_href
              urldefrag netloc urljoin page_handler self
              (crawl_domain netloc self start_page) no_cache Q Inv
              Hplain Hhandled Hfailed _ _ _ _ _ _ _ _ _ _ Hinit Hloop)
    as [frontier (Hnd & _ & _)].
  done.
Qed.

Lemma get_links_same_domain d url soup x :
  d ≠ EmptyString →
  x ∈ get_links Soup select_a_href urldefrag netloc urljoin (Some d) url soup →
  same_domain (netloc x) d = true.
Proof.
  intros Hd. unfold get_links. rewrite (bool_decide_false (d = EmptyString)) by done.
  cbn [negb]. intros Hx. by apply list_elem_of_In, filter_In in Hx as [_ Hx].
Qed.

(** X17.  With [single_domain] on and a start page that has a host,
    every page handled in a run is the start page or a page whose host
    [same_domain] equates with the start page's host. *)
Theorem crawl_stays_in_domain (fuel : nat) (self : crawler)
    (start_page : string) (no_cache : bool) (w w' : world)
    (pages failed : Z) (crawled : list string) :
  single_domain self = true →
  netloc start_page ≠ EmptyString →
  run fuel self start_page no_cache w = Some (Ok (pages, failed, crawled), w') →
  ∀ x, x ∈ crawled →
    x = start_page ∨ same_domain (netloc x) (netloc start_page) = true.
Proof.
  intros Hsingle Hhost H. apply crawl_run_inv in H as (w1 & Hloop & _).
  unfold crawl_domain in Hloop. rewrite Hsingle in Hloop.
  pose (ok := λ x, x = start_page ∨ same_domain (netloc x) (netloc start_page) = true).
  pose (Inv := λ crawled page_queue : list string,
          ∀ x, x ∈ crawled ∨ x ∈ page_queue → ok x).
  assert (∀ c url q soup, True → Inv c (url :: q) →
            Inv (c ++ [url])
              (enqueue_links (get_links Soup select_a_href urldefrag netloc urljoin
                                (Some (netloc start_page)) url soup)
                 (c ++ [url]) q)) as Hhandled.
  { intros c url q soup _ HI x [Hx|Hx].
    + apply elem_of_app in Hx as [Hx | Hx%list_elem_of_singleton].
      * apply HI. by left.
      * subst x. apply HI. right. by left.
    + apply enqueue_links_elem in Hx as [Hx|Hx].
      * apply HI. right. by right.
      * right. by eapply get_links_same_domain. }
  assert (∀ c url q, Inv c (url :: q) → Inv c q) as Hfailed.
  { intros c url q HI x [Hx|Hx]; apply HI; [by left | right; by right]. }
  assert (Inv [] [start_page]) as Hinit.
  { intros x [Hx | Hx%list_elem_of_singleton]; [by apply elem_of_nil in Hx|].
    by left. }
  destruct (crawl_loop_invariant now sql_fault sess_get Soup html_parser select_a_href
              urldefrag netloc urljoin page_handler self
              (Some (netloc start_page)) no_cache (λ _ _, True) Inv
              (λ _ _ _ _ _, I) Hhandled Hfailed _ _ _ _ _ _ _ _ _ _ Hinit Hloop)
    as [frontier Hinv].
  intros x Hx. apply Hinv. by left.
Qed.
End CrawlRunFacts.

Lemma failed_page_is_counted_and_skipped_witness :
  ∃ msg,
    crawl_loop (λ k, Z.of_nat k) (λ _, None) (λ _ _, Raise MissingSchema) (list string)
      words_parser id simple_urldefrag simple_netloc simple_urljoin Crawler_page_handler
      (mkCrawler None 50 true) (Some "hej.sk") false 2 0 0 [] ["hej.sk/a"; "hej.sk/b"] world0
    = crawl_loop (λ k, Z.of_nat k) (λ _, None) (λ _ _, Raise MissingSchema) (list string)
        words_parser id simple_urldefrag simple_netloc simple_urljoin Crawler_page_handler
        (mkCrawler None 50 true) (Some "hej.sk") false 1 0 (0 + 1) [] ["hej.sk/b"]
        (mkWorld (S (tick world0)) (db world0) (fs world0)
           (log world0 ++ [(WARNING, msg)])).
Proof.
  apply failed_page_is_counted_and_skipped.
  - reflexivity.
  - left. reflexivity.
Defined.

Lemma crawl_stays_within_budget_witness :
  let crawled := ["http://hej.sk/"; "http://hej.sk/b"] in
  2 = Z.of_nat (length crawled)
  ∧ 2 ≤ Z.max 1 (max_pages (mkCrawler None 2 true))
  ∧ 0 ≤ 0
  ∧ ∃ before,
      log (mkWorld 2 [] ∅ [(INFO, MsgCrawling "http://hej.sk/");
                           (INFO, MsgCrawling "http://hej.sk/b");
                           (INFO, MsgMaxPages); (INFO, MsgSummary 2 0)])
      = before ++ [(INFO, MsgSummary 2 0)].
Proof.
  intros crawled.
  apply (crawl_stays_within_budget (λ k, Z.of_nat k) (λ _, None) site (list string)
           words_parser id simple_urldefrag simple_netloc simple_urljoin
           Crawler_page_handler 10 (mkCrawler None 2 true) "http://hej.sk/" false world0).
  vm_compute. reflexivity.
Defined.

(** Every page of the stand-in site has plain links only. *)
Lemma site_links_plain url w0 soup w1 :
  Crawler_get (λ k, Z.of_nat k) (λ _, None) site (list string) words_parser
    (mkCrawler None 50 true) (Some "hej.sk") false url w0 = Some (Ok soup, w1) →
  ∀ x, x ∈ get_links (list string) id simple_urldefrag simple_netloc simple_urljoin
             (Some "hej.sk") url soup → plain_url x.
Proof.
  unfold Crawler_get, is_cacheable. cbn [cache].
  unfold bind, get_html, bind, next_tick. cbn [tick].
  unfold site. repeat case_bool_decide; subst; cbn; unfold ret, raise;
    intros Hrun; simplify_eq;
    intros x Hx; apply list_elem_of_In in Hx; vm_compute in Hx;
    repeat (destruct Hx as [<-|Hx]; [left; vm_compute; reflexivity|]); done.
Qed.

Lemma crawl_handles_no_page_twice_witness :
  NoDup ["http://hej.sk/"; "http://hej.sk/b"; "http://hej.sk/c"; "http://hej.sk/d"].
Proof.
  eapply (crawl_handles_no_page_twice (λ k, Z.of_nat k) (λ _, None) site (list string)
            words_parser id simple_urldefrag simple_netloc simple_urljoin
            Crawler_page_handler 10 (mkCrawler None 50 true) "http://hej.sk/" false
            world0 _ 4 0).
  - change (crawl_domain simple_netloc (mkCrawler None 50 true) "http://hej.sk/")
      with (Some "hej.sk"). apply site_links_plain.
  - vm_compute. reflexivity.
Defined.

Lemma crawl_stays_in_domain_witness :
  Forall (λ x, x = "http://hej.sk/"
               ∨ same_domain (simple_netloc x) (simple_netloc "http://hej.sk/") = true)
    ["http://hej.sk/"; "http://hej.sk/b"; "http://hej.sk/c"; "http://hej.sk/d"].
Proof.
  apply Forall_forall.
  eapply (crawl_stays_in_domain (λ k, Z.of_nat k) (λ _, None) site (list string)
            words_parser id simple_urldefrag simple_netloc simple_urljoin
            Crawler_page_handler 10 (mkCrawler None 50 true) "http://hej.sk/" false
            world0 _ 4 0).
  - reflexivity.
  - vm_compute. discriminate.
  - vm_compute. reflexivity.
Defined.

(* ===================================================================== *)
(** * Further properties of the shopify worker *)
(* ===================================================================== *)

Lemma collect_products_spec (limit : nat) (refs products : list string) :
  NoDup products →
  (∀ p, p ∈ products → startswith p "/" = true) →
  let found := collect_products limit refs products in
  NoDup found
  ∧ (∀ p, p ∈ found → startswith p "/" = true ∧ (p ∈ products ∨ p ∈ refs))
  ∧ ((length products < limit)%nat → (length found ≤ limit)%nat)
  ∧ (length found ≤ S (length products) ∨ length found ≤ limit)%nat.
Proof.
  revert products. induction refs as [|link refs IH]; intros products Hnd Hslash; simpl.
  - split; [done|]. split; [|split; lia].
    intros p Hp. split; [by apply Hslash | by left].
  - set (products' := if startswith link "/" && negb (py_in link products)
                      then products ++ [link] else products).
    assert (NoDup products') as Hnd'.
    { unfold products'. destruct (startswith link "/" && negb (py_in link products)) eqn:Hc;
        [|done].
      apply andb_true_iff in Hc as [_ Hin%negb_true_iff].
      unfold py_in in Hin. apply bool_decide_eq_false in Hin.
      apply NoDup_app. split; [done|]. split; [|apply NoDup_singleton].
      intros x Hx Hx'%list_elem_of_singleton. by subst. }
    assert (∀ p, p ∈ products' → startswith p "/" = true ∧ (p ∈ products ∨ p = link))
      as Hslash'.
    { unfold products'. destruct (startswith link "/" && negb (py_in link products)) eqn:Hc.
      - apply andb_true_iff in Hc as [Hl _].
        intros p [Hp | Hp%list_elem_of_singleton]%elem_of_app.
        + split; [by apply Hslash | by left].
        + subst p. split; [done | by right].
      - intros p Hp. split; [by apply Hslash | by left]. }
    assert (length products' ≤ S (length products))%nat as Hlen.
    { unfold products'. destruct (_ && _); [rewrite length_app; simpl|]; lia. }
    destruct (limit <=? length products')%nat eqn:Hfull.
    + apply Nat.leb_le in Hfull. split; [done|]. split.
      * intros p Hp. destruct (Hslash' p Hp) as [Hs [Hin| ->]].
        -- split; [done | by left].
        -- split; [done|]. right. by left.
      * split; lia.
    + apply Nat.leb_gt in Hfull.
      destruct (IH products' Hnd' (λ p Hp, proj1 (Hslash' p Hp)))
        as (H1 & H2 & H3 & H4).
      split; [done|]. split.
      * intros p Hp. destruct (H2 p Hp) as [Hs [Hin|Hin]].
        -- split; [done|]. destruct (Hslash' p Hin) as [_ [?| ->]]; [by left|].
           right. by left.
        -- split; [done|]. right. by right.
      * split; intros; specialize (H3 Hfull); lia.
Qed.

(** X18.  The product links taken from the listing are distinct, start
    with a slash, come from the page, and are at most [limit] (one when
    [limit] is zero). *)
Theorem collect_products_distinct_and_bounded (limit : nat) (refs : list string) :
  let found := collect_products limit refs [] in
  NoDup found
  ∧ (∀ p, p ∈ found → startswith p "/" = true ∧ p ∈ refs)
  ∧ (length found ≤ Nat.max 1 limit)%nat.
Proof.
  destruct (collect_products_spec limit refs [] (NoDup_nil_2))
    as (Hnd & Hin & Hlt & Hle).
  { intros p Hp. by apply elem_of_nil in Hp. }
  split; [done|]. split.
  - intros p Hp. destruct (Hin p Hp) as [Hs [Hp'|Hp']]; [by apply elem_of_nil in Hp'|done].
  - simpl in *. lia.
Qed.

Lemma triple_ret {S A} (a : A) (Q : A → S → Prop) E :
  triple (Q a) (ret a) Q E.
Proof. by intros st H. Qed.

Lemma triple_raise {S A} (e : exn) (Q : A → S → Prop) (E : exn → S → Prop) :
  triple (E e) (raise e) Q E.
Proof. by intros st H. Qed.

Lemma triple_bind {S A B} (P : S → Prop) (m : ST S A) (k : A → ST S B) Q R E :
  triple P m Q E → (∀ a, triple (Q a) (k a) R E) → triple P (bind m k) R E.
Proof.
  intros Hm Hk st HP. specialize (Hm st HP). unfold bind.
  destruct (m st) as [[[a|e] st']|]; [by apply Hk | done | done].
Qed.

Lemma triple_try_except {S A} (P : S → Prop) (m : ST S A) (h : exn → ST S A) Q E E' :
  triple P m Q E' → (∀ e, triple (E' e) (h e) Q E) → triple P (try_except m h) Q E.
Proof.
  intros Hm Hh st HP. specialize (Hm st HP). unfold try_except.
  destruct (m st) as [[[a|e] st']|]; [done | by apply Hh | done].
Qed.

Lemma triple_weaken {S A} (P P' : S → Prop) (m : ST S A) (Q Q' : A → S → Prop) E E' :
  triple P' m Q' E' →
  (∀ st, P st → P' st) → (∀ a st, Q' a st → Q a st) → (∀ e st, E' e st → E e st) →
  triple P m Q E.
Proof.
  intros Hm HP HQ HE st H. specialize (Hm st (HP st H)).
  destruct (m st) as [[[a|e] st']|]; [by apply HQ | by apply HE | done].
Qed.

Lemma triple_lift {S A} (r : result A) (P : S → Prop) (Q : A → S → Prop) E :
  (∀ st a, r = Ok a → P st → Q a st) →
  (∀ st e, r = Raise e → P st → E e st) →
  triple P (lift r) Q E.
Proof. intros HQ HE st HP. destruct r; simpl; eauto. Qed.

Lemma slot_key_fresh (s k : string) :
  k ∈ ["url"; "email"; "facebook"; "twitter"] →
  "title " +:+ s ≠ k ∧ "image " +:+ s ≠ k.
Proof.
  intros Hk. apply list_elem_of_In in Hk. simpl in Hk.
  destruct Hk as [<-|[<-|[<-|[<-|[]]]]];
    split; rewrite !string_app_cons, string_app_nil; discriminate.
Qed.

Lemma slot_keys_S (i count : nat) :
  slot_keys i (S count)
  = {[ "title " +:+ pretty i; "image " +:+ pretty i ]} ∪ slot_keys (S i) count.
Proof. unfold slot_keys. simpl. by rewrite (assoc_L (∪)). Qed.

Lemma slot_keys_app (i n count : nat) :
  slot_keys i n ∪ slot_keys (i + n) count = slot_keys i (n + count).
Proof.
  unfold slot_keys. by rewrite seq_app, flat_map_app, list_to_set_app_L.
Qed.

Lemma fields_insert_slot u0 D sets done d k v :
  k ∉ ["url"; "email"; "facebook"; "twitter"] →
  (∀ x, x ∈ sets ++ done → x ∈ ["email"; "facebook"; "twitter"]) →
  fields u0 D sets done d → fields u0 ({[k]} ∪ D) sets done (<[k := v]> d).
Proof.
  intros Hk Hcontacts (Hdom & Hurl & Hsets & Hdone).
  assert (∀ x, x ∈ sets ++ done → k ≠ x) as Hne.
  { intros x Hx ->. apply Hk. right. by apply Hcontacts. }
  split; [|split; [|split]].
  - by rewrite dom_insert_L, Hdom.
  - rewrite lookup_insert_ne; [done|]. intros ->. apply Hk. by left.
  - intros x Hx. rewrite lookup_insert_ne; [by apply Hsets|].
    apply Hne, elem_of_app. by left.
  - intros x Hx. rewrite lookup_insert_ne; [by apply Hdone|].
    apply Hne, elem_of_app. by right.
Qed.

Ltac set_eq_tauto :=
  apply set_eq; intros ?;
  rewrite ?elem_of_union, ?elem_of_singleton, ?elem_of_empty; tauto.

Lemma slot_keys_snoc (n : nat) :
  slot_keys 1 (S n)
  = slot_keys 1 n ∪ {[ "title " +:+ pretty (S n); "image " +:+ pretty (S n) ]}.
Proof.
  replace (S n) with (n + 1)%nat at 1 by lia.
  rewrite <- slot_keys_app. f_equal. unfold slot_keys. simpl.
  set_eq_tauto.
Qed.

Lemma triple_or {S A} (P1 P2 : S → Prop) (m : ST S A) Q E :
  triple P1 m Q E → triple P2 m Q E → triple (λ st, P1 st ∨ P2 st) m Q E.
Proof. intros H1 H2 st [H|H]; [by apply H1 | by apply H2]. Qed.

Lemma triple_any {S A} (P : S → Prop) (e : exn) (Q : A → S → Prop) :
  triple P (raise e) Q (λ _ _, True).
Proof. by intros st _. Qed.

Lemma fields_insert_set u0 D sets d k s :
  k ∈ ["email"; "facebook"; "twitter"] →
  fields u0 D sets [] d → fields u0 ({[k]} ∪ D) (sets ++ [k]) [] (<[k := VSet s]> d).
Proof.
  intros Hk (Hdom & Hurl & Hsets & _). split; [|split; [|split]].
  - by rewrite dom_insert_L, Hdom.
  - rewrite lookup_insert_ne; [done|]. intros ->.
    apply list_elem_of_In in Hk. simpl in Hk.
    destruct Hk as [H|[H|[H|[]]]]; discriminate H.
  - intros x Hx. destruct (decide (k = x)) as [->|Hne].
    + rewrite lookup_insert_eq. eauto.
    + rewrite lookup_insert_ne by done. apply Hsets.
      apply elem_of_app in Hx as [Hx | Hx%list_elem_of_singleton]; [done | congruence].
  - intros x Hx. by apply elem_of_nil in Hx.
Qed.

Lemma fields_converted u0 D sets done d item v :
  item ∈ ["email"; "facebook"; "twitter"] →
  item ∉ sets → not_set v →
  fields u0 D (item :: sets) done d →
  fields u0 D sets (item :: done) (<[item := v]> d).
Proof.
  intros Hitem Hfresh Hv (Hdom & Hurl & Hsets & Hdone). split; [|split; [|split]].
  - rewrite dom_insert_L, Hdom. apply subseteq_union_1_L, singleton_subseteq_l.
    rewrite <- Hdom. apply elem_of_dom. destruct (Hsets item) as [s ->]; [by left | done].
  - rewrite lookup_insert_ne; [done|]. intros ->.
    apply list_elem_of_In in Hitem. simpl in Hitem.
    destruct Hitem as [H|[H|[H|[]]]]; discriminate H.
  - intros x Hx. rewrite lookup_insert_ne; [apply Hsets; by right|]. by intros ->.
  - intros x [->|Hx]%elem_of_cons.
    + rewrite lookup_insert_eq. eauto.
    + destruct (decide (item = x)) as [->|Hne].
      * rewrite lookup_insert_eq. eauto.
      * rewrite lookup_insert_ne by done. by apply Hdone.
Qed.

Section ShopSchema.
Variable sess_get : nat → string → result response.
Variable get_contacts : string → gset string * gset string * gset string.
Variable product_refs : string → list string.
Variable Json : Type.
Variable response_json : string → result Json.
Variable product_title : Json → result string.
Variable product_image : Json → result (option string).
(** The record being filled, the state it started from, its ["url"]. *)
Variable i : nat.
Variable st0 : shop.
Variable u0 : option value.

Local Abbreviation at_i := (record_at i st0).
Local Abbreviation anything := (λ (_ : exn) (_ : shop), True).

Lemma triple_shop_tick φ E : triple (at_i φ) shop_tick (λ _, at_i φ) E.
Proof. by intros st H. Qed.

Lemma triple_data_set φ ψ k v E :
  (∀ d, φ d → ψ (<[k := v]> d)) →
  triple (at_i φ) (data_set i k v) (λ _, at_i ψ) E.
Proof.
  intros Hstep st ((d & Hd & Hφ) & Hframe & Hq & Hlen). unfold data_set. simpl.
  split; [|split; [|split]]; simpl.
  - exists (<[k := v]> d). split; [|by apply Hstep].
    by rewrite list_lookup_alter_eq, Hd.
  - intros j Hj. rewrite list_lookup_alter_ne by done. by apply Hframe.
  - done.
  - by rewrite length_alter.
Qed.

Lemma triple_data_get φ k :
  triple (at_i φ) (data_get i k)
    (λ v, at_i (λ d, φ d ∧ d !! k = Some v)) (λ _, at_i φ).
Proof.
  intros st ((d & Hd & Hφ) & Hframe & Hq & Hlen). unfold data_get.
  rewrite Hd. simpl. destruct (d !! k) as [v|] eqn:Hk.
  - split; [|done]. by exists d.
  - split; [|done]. by exists d.
Qed.

(** [update] on a field that holds a set. *)
Lemma triple_data_update D sets done k new :
  k ∈ sets → k ∈ ["email"; "facebook"; "twitter"] →
  (∀ x, x ∈ done → x ≠ k) →
  triple (at_i (fields u0 D sets done)) (data_update i k new)
    (λ _, at_i (fields u0 D sets done)) anything.
Proof.
  intros Hk Hcontact Hdone. unfold data_update.
  apply (triple_bind _ _ _
           (λ v, at_i (λ d, fields u0 D sets done d ∧ d !! k = Some v))).
  { eapply triple_weaken; [apply triple_data_get | done..]. }
  intros v. destruct v as [s|old|l]; [by intros st _ | | by intros st _].
  apply triple_data_set.
  intros d ((Hdom & Hurl & Hsets & Hdn) & Hv).
  split; [|split; [|split]].
  - rewrite dom_insert_L, Hdom. apply subseteq_union_1_L, singleton_subseteq_l.
    rewrite <- Hdom. apply elem_of_dom. eauto.
  - rewrite lookup_insert_ne; [done|]. intros ->.
    apply list_elem_of_In in Hcontact. simpl in Hcontact.
    destruct Hcontact as [H|[H|[H|[]]]]; discriminate H.
  - intros x Hx. destruct (decide (k = x)) as [->|Hne].
    + rewrite lookup_insert_eq. eauto.
    + rewrite lookup_insert_ne by done. by apply Hsets.
  - intros x Hx. rewrite lookup_insert_ne; [by apply Hdn|].
    intros ->. by apply (Hdone x).
Qed.

Local Abbreviation contacts := ["email"; "facebook"; "twitter"].

Lemma triple_crawl_sub_pages D urls :
  triple (at_i (fields u0 D contacts []))
    (crawl_sub_pages sess_get get_contacts i urls)
    (λ _, at_i (fields u0 D contacts [])) anything.
Proof.
  induction urls as [|url urls IH]; [by intros st H|].
  cbn [crawl_sub_pages].
  apply (triple_bind _ _ _ (λ _, at_i (fields u0 D contacts []))).
  { apply triple_shop_tick. }
  intros k. destruct (sess_get k url) as [response|e].
  - destruct (status_code response =? 404); [done|].
    destruct (get_contacts (text response)) as [[mail facebook] twitter].
    repeat (apply (triple_bind _ _ _ (λ _, at_i (fields u0 D contacts [])));
            [apply triple_data_update;
             [apply list_elem_of_In; simpl; tauto
             |apply list_elem_of_In; simpl; tauto
             |intros x Hx; by apply elem_of_nil in Hx]
            |intros _]).
    done.
  - destruct (ignored_error e); [done | apply triple_any].
Qed.

Lemma triple_convert_item D sets done item :
  item ∈ contacts → item ∉ sets →
  triple (at_i (fields u0 D (item :: sets) done))
    (convert_item i item)
    (λ _, at_i (fields u0 D sets (item :: done))) anything.
Proof.
  intros Hitem Hfresh. unfold convert_item.
  apply (triple_bind _ _ _
           (λ v, at_i (λ d, fields u0 D (item :: sets) done d ∧ d !! item = Some v))).
  { eapply triple_weaken; [apply triple_data_get | done..]. }
  intros v.
  destruct (match v with
            | VSet s => elements s
            | VList l => l
            | VStr s => (λ c, String c EmptyString) <$> list_ascii_of_string s
            end) as [|x [|y l]];
    apply triple_data_set; intros d [Hd _]; by apply fields_converted.
Qed.

Lemma triple_fill_slots done count :
  (∀ x, x ∈ done → x ∈ contacts) →
  ∀ n D,
    triple (at_i (fields u0 D [] done)) (fill_slots i count n)
      (λ _, at_i (fields u0 (D ∪ slot_keys n count) [] done)) anything.
Proof.
  intros Hdone. induction count as [|count IH]; intros n D.
  - cbn [fill_slots]. intros st H. cbn.
    replace (D ∪ slot_keys n 0) with D; [done|]. unfold slot_keys. simpl. set_eq_tauto.
  - cbn [fill_slots].
    apply (triple_bind _ _ _
             (λ _, at_i (fields u0 ({["title " +:+ pretty n]} ∪ D) [] done))).
    { apply triple_data_set. intros d. apply fields_insert_slot; [|done].
      intros Hk. by apply (slot_key_fresh (pretty n)) in Hk as [? _]. }
    intros _.
    apply (triple_bind _ _ _
             (λ _, at_i (fields u0 ({["image " +:+ pretty n]}
                                    ∪ ({["title " +:+ pretty n]} ∪ D)) [] done))).
    { apply triple_data_set. intros d. apply fields_insert_slot; [|done].
      intros Hk. by apply (slot_key_fresh (pretty n)) in Hk as [_ ?]. }
    intros _.
    eapply triple_weaken; [apply IH | done | | done].
    intros [] st. cbn beta.
    replace ({["image " +:+ pretty n]} ∪ ({["title " +:+ pretty n]} ∪ D)
             ∪ slot_keys (S n) count) with (D ∪ slot_keys n (S count)); [done|].
    rewrite slot_keys_S. set_eq_tauto.
Qed.

Lemma triple_fetch_products done urls :
  (∀ x, x ∈ done → x ∈ contacts) →
  ∀ n D,
    triple (at_i (fields u0 (D ∪ slot_keys 1 n) [] done))
      (fetch_products sess_get Json response_json product_title product_image
         i urls (S n))
      (λ i' st, ∃ n', i' = S n' ∧ (n ≤ n' ≤ n + length urls)%nat
                      ∧ at_i (fields u0 (D ∪ slot_keys 1 n') [] done) st)
      anything.
Proof.
  intros Hdone. induction urls as [|url urls IH]; intros n D.
  { intros st H. cbn. exists n. split; [done|]. split; [simpl; lia | done]. }
  assert (triple (at_i (fields u0 (D ∪ slot_keys 1 n) [] done))
            (fetch_products sess_get Json response_json product_title product_image
               i urls (S n))
            (λ i' st, ∃ n', i' = S n' ∧ (n ≤ n' ≤ n + length (url :: urls))%nat
                            ∧ at_i (fields u0 (D ∪ slot_keys 1 n') [] done) st)
            anything) as Hskip.
  { eapply triple_weaken; [apply (IH n D) | done | | done].
    intros i' st (n' & -> & Hn' & H). exists n'. split; [done|]. split; [simpl; lia | done]. }
  cbn [fetch_products].
  apply (triple_bind _ _ _ (λ _, at_i (fields u0 (D ∪ slot_keys 1 n) [] done))).
  { apply triple_shop_tick. }
  intros k. destruct (sess_get k url) as [response|e];
    [|destruct (ignored_error e); [done | apply triple_any]].
  destruct (status_code response =? 404); [done|].
  set (title := "title " +:+ pretty (S n)). set (image := "image " +:+ pretty (S n)).
  assert (title ∉ ["url"; "email"; "facebook"; "twitter"]) as Htitle.
  { intros Hk. by apply (slot_key_fresh (pretty (S n))) in Hk as [? _]. }
  assert (image ∉ ["url"; "email"; "facebook"; "twitter"]) as Himage.
  { intros Hk. by apply (slot_key_fresh (pretty (S n))) in Hk as [_ ?]. }
  set (Dn := D ∪ slot_keys 1 n).
  assert (∀ v d, fields u0 Dn [] done d →
                 fields u0 ({[title]} ∪ Dn) [] done (<[title := v]> d)) as Hfirst.
  { intros v d Hd. by apply fields_insert_slot. }
  assert (∀ v d, fields u0 ({[title]} ∪ Dn) [] done d →
                 fields u0 ({[title]} ∪ Dn) [] done (<[title := v]> d)) as Hagain.
  { intros v d Hd.
    pose proof (fields_insert_slot u0 _ [] done d title v Htitle Hdone Hd) as H.
    replace ({[title]} ∪ ({[title]} ∪ Dn)) with ({[title]} ∪ Dn) in H by set_eq_tauto.
    exact H. }
  assert (∀ w d, fields u0 ({[title]} ∪ Dn) [] done d →
                 fields u0 (D ∪ slot_keys 1 (S n)) [] done (<[image := w]> d)) as Hsecond.
  { intros w d Hd.
    replace (D ∪ slot_keys 1 (S n)) with ({[image]} ∪ ({[title]} ∪ Dn)).
    - by apply fields_insert_slot.
    - unfold Dn. rewrite slot_keys_snoc. fold title image. set_eq_tauto. }
  apply (triple_bind _ _ _ (λ _, at_i (fields u0 (D ∪ slot_keys 1 (S n)) [] done))).
  - apply (triple_try_except _ _ _ _ _
             (λ _ st, at_i (fields u0 Dn [] done) st
                      ∨ at_i (fields u0 ({[title]} ∪ Dn) [] done) st)).
    + apply (triple_bind _ _ _ (λ _, at_i (fields u0 Dn [] done))).
      { apply triple_lift; [done | by left]. }
      intros data.
      apply (triple_bind _ _ _ (λ _, at_i (fields u0 Dn [] done))).
      { apply triple_lift; [done | by left]. }
      intros title_value.
      apply (triple_bind _ _ _ (λ _, at_i (fields u0 ({[title]} ∪ Dn) [] done))).
      { apply triple_data_set. intros d. apply Hfirst. }
      intros _.
      apply (triple_bind _ _ _ (λ _, at_i (fields u0 ({[title]} ∪ Dn) [] done))).
      { apply triple_lift; [done | by right]. }
      intros [src|]; apply triple_data_set; intros d; apply Hsecond.
    + intros e. destruct e; try apply triple_any.
      apply (triple_or (at_i (fields u0 Dn [] done))
               (at_i (fields u0 ({[title]} ∪ Dn) [] done))).
      * apply (triple_bind _ _ _ (λ _, at_i (fields u0 ({[title]} ∪ Dn) [] done))).
        { apply triple_data_set. intros d. apply Hfirst. }
        intros _. apply triple_data_set. intros d. apply Hsecond.
      * apply (triple_bind _ _ _ (λ _, at_i (fields u0 ({[title]} ∪ Dn) [] done))).
        { apply triple_data_set. intros d. apply Hagain. }
        intros _. apply triple_data_set. intros d. apply Hsecond.
  - intros _. eapply triple_weaken; [apply (IH (S n) D) | done | | done].
    intros i' st (n' & -> & Hn' & H). exists n'. split; [done|]. split; [simpl; lia | done].
Qed.

Lemma record_at_mono (φ ψ : gmap string value → Prop) st :
  (∀ d, φ d → ψ d) → at_i φ st → at_i ψ st.
Proof. intros Hφ ((d & Hd & H) & Hrest). split; [|done]. exists d. auto. Qed.

Lemma triple_get_first_products done D domain url_collections limit :
  (0 < limit)%nat →
  (∀ x, x ∈ done → x ∈ contacts) →
  triple (at_i (fields u0 D [] done))
    (get_first_products sess_get product_refs Json response_json product_title
       product_image i domain url_collections limit)
    (λ _, at_i (fields u0 (D ∪ slot_keys 1 limit) [] done)) anything.
Proof.
  intros Hlimit Hdone. unfold get_first_products.
  apply (triple_bind _ _ _ (λ _, at_i (fields u0 D [] done))).
  { apply triple_shop_tick. }
  intros k.
  assert (triple (at_i (fields u0 D [] done)) (fill_empty i limit)
            (λ _, at_i (fields u0 (D ∪ slot_keys 1 limit) [] done)) anything) as Hempty.
  { by apply triple_fill_slots. }
  destruct (sess_get k url_collections) as [response|e];
    [|destruct (ignored_error e); [done | apply triple_any]].
  destruct (status_code response =? 404); [done|].
  cbv zeta.
  set (products := collect_products limit (product_refs (text response)) []).
  set (urls := _ <$> products).
  assert (length urls ≤ limit)%nat as Hlen.
  { unfold urls. rewrite length_fmap.
    destruct (collect_products_spec limit (product_refs (text response)) [] (NoDup_nil_2))
      as (_ & _ & Hlt & _).
    - intros p Hp. by apply elem_of_nil in Hp.
    - apply Hlt. simpl. lia. }
  apply (triple_bind _ _ _
           (λ i' st, ∃ n', i' = S n' ∧ (0 ≤ n' ≤ 0 + length urls)%nat
                           ∧ at_i (fields u0 (D ∪ slot_keys 1 n') [] done) st)).
  { eapply triple_weaken; [apply (triple_fetch_products done urls Hdone 0 D) | | done | done].
    intros st H. replace (D ∪ slot_keys 1 0) with D; [done|].
    unfold slot_keys. simpl. set_eq_tauto. }
  intros i' st (n' & -> & Hn' & H).
  pose proof (triple_fill_slots done (limit + 1 - S n') Hdone (S n') (D ∪ slot_keys 1 n') st H)
    as Hfill.
  assert (D ∪ slot_keys 1 n' ∪ slot_keys (S n') (limit + 1 - S n') = D ∪ slot_keys 1 limit)
    as Heq.
  { rewrite <- (assoc_L (∪)). f_equal.
    etrans; [exact (slot_keys_app 1 n' (limit + 1 - S n'))|]. f_equal. lia. }
  rewrite Heq in Hfill. exact Hfill.
Qed.

Lemma triple_convert_to_list D :
  triple (at_i (fields u0 D contacts [])) (convert_to_list i)
    (λ _, at_i (fields u0 D [] ["twitter"; "facebook"; "email"])) anything.
Proof.
  unfold convert_to_list.
  apply (triple_bind _ _ _ (λ _, at_i (fields u0 D ["facebook"; "twitter"] ["email"]))).
  { apply triple_convert_item; [apply list_elem_of_In; simpl; tauto|].
    intros H. apply list_elem_of_In in H. simpl in H. intuition discriminate. }
  intros _.
  apply (triple_bind _ _ _ (λ _, at_i (fields u0 D ["twitter"] ["facebook"; "email"]))).
  { apply triple_convert_item; [apply list_elem_of_In; simpl; tauto|].
    intros H. apply list_elem_of_In in H. simpl in H. intuition discriminate. }
  intros _.
  apply triple_convert_item; [apply list_elem_of_In; simpl; tauto|].
  intros H. by apply elem_of_nil in H.
Qed.

(** One turn of the worker on record [i]: the keys it adds are the three
    contact fields and five product slots. *)
Lemma triple_run_item D :
  triple (at_i (fields u0 D [] []))
    (run_item sess_get get_contacts product_refs Json response_json product_title
       product_image i)
    (λ _, at_i (fields u0 (D ∪ contact_keys ∪ slot_keys 1 5) []
                  ["twitter"; "facebook"; "email"]))
    anything.
Proof.
  set (D1 := {["email"]} ∪ D).
  set (D2 := {["facebook"]} ∪ D1).
  set (D3 := {["twitter"]} ∪ D2).
  replace (D ∪ contact_keys ∪ slot_keys 1 5) with (D3 ∪ slot_keys 1 5).
  2:{ f_equal. unfold D3, D2, D1, contact_keys. set_eq_tauto. }
  unfold run_item.
  apply (triple_bind _ _ _ (λ _, at_i (fields u0 D [] []))).
  { eapply triple_weaken; [apply triple_data_get | done | | done].
    intros v st. apply record_at_mono. by intros d [H _]. }
  intros url. cbv zeta.
  apply (triple_bind _ _ _ (λ _, at_i (fields u0 D1 ["email"] []))).
  { apply triple_data_set. intros d.
    apply (fields_insert_set u0 D [] d "email"). apply list_elem_of_In; simpl; tauto. }
  intros _.
  apply (triple_bind _ _ _ (λ _, at_i (fields u0 D2 ["email"; "facebook"] []))).
  { apply triple_data_set. intros d.
    apply (fields_insert_set u0 D1 ["email"] d "facebook").
    apply list_elem_of_In; simpl; tauto. }
  intros _.
  apply (triple_bind _ _ _ (λ _, at_i (fields u0 D3 contacts []))).
  { apply triple_data_set. intros d.
    apply (fields_insert_set u0 D2 ["email"; "facebook"] d "twitter").
    apply list_elem_of_In; simpl; tauto. }
  intros _.
  apply (triple_bind _ _ _ (λ _, at_i (fields u0 D3 contacts []))).
  { apply triple_crawl_sub_pages. }
  intros _.
  apply (triple_bind _ _ _ (λ _, at_i (fields u0 D3 [] ["twitter"; "facebook"; "email"]))).
  { apply triple_convert_to_list. }
  intros _.
  apply triple_get_first_products; [lia|].
  intros x Hx. apply list_elem_of_In in Hx. apply list_elem_of_In. simpl in *. tauto.
Qed.
End ShopSchema.

(** X19.  One turn of the shopify worker on a record, whatever the
    network, the contact extractor and the product pages give: when the
    turn returns, the record has exactly the keys it had plus email,
    facebook, twitter and title 1..5, image 1..5 (a fixed width, however
    many products were found); its url is as it was; the three contact
    fields are no longer sets; every other record, the number of records
    and the queue are unchanged.  The turn never runs dry. *)
Theorem run_item_fills_the_schema
    (sess_get : nat → string → result response)
    (get_contacts : string → gset string * gset string * gset string)
    (product_refs : string → list string) (Json : Type)
    (response_json : string → result Json)
    (product_title : Json → result string)
    (product_image : Json → result (option string))
    (i : nat) (st : shop) (d : gmap string value) :
  s_stores st !! i = Some d →
  match run_item sess_get get_contacts product_refs Json response_json product_title
          product_image i st with
  | Some (Ok _, st') =>
      ∃ d', s_stores st' !! i = Some d'
        ∧ dom d' = dom d ∪ contact_keys ∪ slot_keys 1 5
        ∧ d' !! "url" = d !! "url"
        ∧ (∀ k, k ∈ ["email"; "facebook"; "twitter"] →
             ∃ v, d' !! k = Some v ∧ not_set v)
        ∧ (∀ j, j ≠ i → s_stores st' !! j = s_stores st !! j)
        ∧ length (s_stores st') = length (s_stores st)
        ∧ s_queue st' = s_queue st
  | Some (Raise _, _) => True
  | None => False
  end.
Proof.
  intros Hd.
  pose proof (triple_run_item sess_get get_contacts product_refs Json response_json
                product_title product_image i st (d !! "url") (dom d) st) as Hrun.
  destruct (run_item _ _ _ _ _ _ _ i st) as [[[[]|e] st']|]; [|done|].
  - destruct Hrun as ((d' & Hd' & Hdom & Hurl & _ & Hdone) & Hframe & Hqueue & Hlen).
    { split; [|done]. exists d. split; [done|]. split; [done|]. split; [done|].
      split; intros k Hk; by apply elem_of_nil in Hk. }
    exists d'. repeat split; try done.
    intros k Hk. apply Hdone.
    apply list_elem_of_In in Hk. apply list_elem_of_In. simpl in *. tauto.
  - apply Hrun. split; [|done]. exists d. split; [done|]. split; [done|]. split; [done|].
    split; intros k Hk; by apply elem_of_nil in Hk.
Qed.

Lemma run_item_fills_the_schema_witness :
  s_stores (mkShop 0 [ {[ "url" := VStr "a.myshopify.com" ]} ] []) !! 0%nat
  = Some ({[ "url" := VStr "a.myshopify.com" ]} : gmap string value)
  ∧ match run_item (λ _ _, Ok (mkResponse 200 (Some "text/html") "page" []))
            (λ _, ({[ "shop@a.sk" ]}, ∅, ∅)) (λ _, ["/products/hat"]) unit
            (λ _, Ok tt) (λ _, Ok "Hat") (λ _, Ok None) 0
            (mkShop 0 [ {[ "url" := VStr "a.myshopify.com" ]} ] []) with
    | Some (Ok _, st') =>
        ∃ d', s_stores st' !! 0%nat = Some d'
          ∧ dom d' = dom ({[ "url" := VStr "a.myshopify.com" ]} : gmap string value)
                     ∪ contact_keys ∪ slot_keys 1 5
          ∧ d' !! "url" = ({[ "url" := VStr "a.myshopify.com" ]} : gmap string value) !! "url"
          ∧ (∀ k, k ∈ ["email"; "facebook"; "twitter"] →
               ∃ v, d' !! k = Some v ∧ not_set v)
          ∧ (∀ j, j ≠ 0%nat →
               s_stores st' !! j
               = s_stores (mkShop 0 [ {[ "url" := VStr "a.myshopify.com" ]} ] []) !! j)
          ∧ length (s_stores st')
            = length (s_stores (mkShop 0 [ {[ "url" := VStr "a.myshopify.com" ]} ] []))
          ∧ s_queue st' = s_queue (mkShop 0 [ {[ "url" := VStr "a.myshopify.com" ]} ] [])
    | Some (Raise _, _) => True
    | None => False
    end.
Proof.
  split; [reflexivity|].
  apply (run_item_fills_the_schema _ _ _ unit _ _ _ 0
           (mkShop 0 [ {[ "url" := VStr "a.myshopify.com" ]} ] [])).
  reflexivity.
Defined.

(* ===================================================================== *)
(** * The rows handed to the writer *)
(* ===================================================================== *)

Lemma slot_title_not_url (s : string) : "title " +:+ s ≠ "url".
Proof. apply slot_key_fresh. by left. Qed.

Lemma slot_image_not_url (s : string) : "image " +:+ s ≠ "url".
Proof. apply slot_key_fresh. by left. Qed.

Section ShopRows.
Variable sess_get : nat → string → result response.
Variable get_contacts : string → gset string * gset string * gset string.
Variable product_refs : string → list string.
Variable Json : Type.
Variable response_json : string → result Json.
Variable product_title : Json → result string.
Variable product_image : Json → result (option string).
Variable stores_csv : list string.
Variable q : list nat.

(** [m] keeps the rows, whether it returns or raises, and returns. *)
Local Abbreviation K := (rows_kept stores_csv q).
Local Abbreviation kept m := (triple K m (λ _, K) (λ _, K)).

Lemma kept_ret {A} (a : A) : kept (ret a).
Proof. by intros st H. Qed.

Lemma kept_raise {A} (e : exn) : kept (raise e : ST shop A).
Proof. by intros st H. Qed.

Lemma kept_lift {A} (r : result A) : kept (lift r).
Proof. intros st H. by destruct r. Qed.

Lemma kept_bind {A B} (m : ST shop A) (k : A → ST shop B) :
  kept m → (∀ a, kept (k a)) → kept (bind m k).
Proof. intros Hm Hk. by apply (triple_bind _ _ _ (λ _, K)). Qed.

Lemma kept_try_except {A} (m : ST shop A) (h : exn → ST shop A) :
  kept m → (∀ e, kept (h e)) → kept (try_except m h).
Proof. intros Hm Hh. by apply (triple_try_except _ _ _ _ _ (λ _, K)). Qed.

Lemma kept_shop_tick : kept shop_tick.
Proof. by intros st H. Qed.

Lemma kept_data_get i k : kept (data_get i k).
Proof. intros st H. unfold data_get. by destruct (_ ≫= _). Qed.

Lemma kept_data_set i k v : k ≠ "url" → kept (data_set i k v).
Proof.
  intros Hk st (Hlen & Hrows & Hq). unfold data_set. simpl.
  unfold rows_kept. cbn [s_stores s_queue].
  split; [by rewrite length_alter|]. split; [|done].
  intros j u Hj. destruct (Hrows j u Hj) as (d & Hd & Hu).
  destruct (decide (i = j)) as [->|Hne].
  - exists (<[k := v]> d). split; [by rewrite list_lookup_alter_eq, Hd|].
    by rewrite lookup_insert_ne.
  - exists d. split; [|done]. by rewrite list_lookup_alter_ne.
Qed.

Lemma kept_data_update i k new : k ≠ "url" → kept (data_update i k new).
Proof.
  intros Hk. apply kept_bind; [apply kept_data_get|].
  intros [s|old|l]; [apply kept_raise | by apply kept_data_set | apply kept_raise].
Qed.

Ltac kept_step :=
  first
    [ apply kept_ret | apply kept_raise | apply kept_lift | apply kept_shop_tick
    | apply kept_data_get
    | apply kept_data_set;
      first [discriminate | apply slot_title_not_url | apply slot_image_not_url]
    | apply kept_data_update; discriminate
    | apply kept_bind; [|intros ?]
    | apply kept_try_except; [|intros ?] ].

Lemma kept_fill_slots i count n : kept (fill_slots i count n).
Proof.
  revert n. induction count as [|count IH]; intros n; cbn [fill_slots];
    repeat kept_step. apply IH.
Qed.

Lemma kept_crawl_sub_pages i urls :
  kept (crawl_sub_pages sess_get get_contacts i urls).
Proof.
  induction urls as [|url urls IH]; cbn [crawl_sub_pages]; repeat kept_step.
  destruct (sess_get _ url) as [response|e].
  - destruct (status_code response =? 404); [done|].
    destruct (get_contacts (text response)) as [[mail facebook] twitter].
    repeat kept_step. done.
  - destruct (ignored_error e); [done | apply kept_raise].
Qed.

Lemma kept_convert_to_list i : kept (convert_to_list i).
Proof.
  assert (∀ item, item ≠ "url" → kept (convert_item i item)) as Hitem.
  { intros item Hne. unfold convert_item. apply kept_bind; [apply kept_data_get|].
    intros v. cbv zeta. destruct (match v with VSet s => _ | _ => _ end) as [|x [|y l]];
      by apply kept_data_set. }
  unfold convert_to_list.
  do 2 (apply kept_bind; [by apply Hitem | intros _]). by apply Hitem.
Qed.

Lemma kept_fetch_products i urls n :
  kept (fetch_products sess_get Json response_json product_title product_image i urls n).
Proof.
  revert n. induction urls as [|url urls IH]; intros n; cbn [fetch_products];
    repeat kept_step.
  destruct (sess_get _ url) as [response|e].
  - destruct (status_code response =? 404); [done|].
    apply kept_bind; [|intros ?; apply IH].
    apply kept_try_except.
    + apply kept_bind; [apply kept_lift | intros data].
      apply kept_bind; [apply kept_lift | intros title].
      apply kept_bind; [apply kept_data_set, slot_title_not_url | intros _].
      apply kept_bind; [apply kept_lift | intros [src|]];
        apply kept_data_set, slot_image_not_url.
    + intros e. destruct e; repeat kept_step.
  - destruct (ignored_error e); [done | apply kept_raise].
Qed.

Lemma kept_run_item i :
  kept (run_item sess_get get_contacts product_refs Json response_json product_title
          product_image i).
Proof.
  unfold run_item. apply kept_bind; [apply kept_data_get|]. intros url. cbv zeta.
  do 3 (apply kept_bind; [by apply kept_data_set|intros _]).
  apply kept_bind; [apply kept_crawl_sub_pages|intros _].
  apply kept_bind; [apply kept_convert_to_list|intros _].
  unfold get_first_products. apply kept_bind; [apply kept_shop_tick|intros k].
  destruct (sess_get k _) as [response|e].
  - destruct (status_code response =? 404); [apply kept_fill_slots|].
    cbv zeta. apply kept_bind; [apply kept_fetch_products|intros ?].
    apply kept_fill_slots.
  - destruct (ignored_error e); [apply kept_fill_slots | apply kept_raise].
Qed.
End ShopRows.

Section ShopMain.
Variable sess_get : nat → string → result response.
Variable get_contacts : string → gset string * gset string * gset string.
Variable product_refs : string → list string.
Variable Json : Type.
Variable response_json : string → result Json.
Variable product_title : Json → result string.
Variable product_image : Json → result (option string).
Variable stores_csv : list string.

Local Abbreviation run' :=
  (run sess_get get_contacts product_refs Json response_json product_title product_image).
Local Abbreviation workers' :=
  (workers sess_get get_contacts product_refs Json response_json product_title
     product_image).

(** A worker empties the queue or stops at an exception; either way it
    comes to an end and the rows are kept. *)
Lemma run_keeps_rows (fuel : nat) :
  ∀ q st, rows_kept stores_csv q st → (length q < fuel)%nat →
    ∃ r st' q', run' fuel st = Some (r, st') ∧ rows_kept stores_csv q' st'.
Proof.
  induction fuel as [|fuel IH]; intros q st Hst Hfuel; [lia|].
  cbn [run]. destruct Hst as (Hlen & Hrows & Hq). rewrite Hq.
  destruct q as [|i rest]; [by exists (Ok tt), st, []|].
  unfold bind.
  pose proof (kept_run_item sess_get get_contacts product_refs Json response_json
                product_title product_image stores_csv rest i
                (mkShop (s_tick st) (s_stores st) rest)) as Hitem.
  assert (rows_kept stores_csv rest (mkShop (s_tick st) (s_stores st) rest)) as Hpre.
  { by split. }
  specialize (Hitem Hpre).
  destruct (run_item _ _ _ _ _ _ _ i _) as [[[[]|e] st1]|].
  - apply (IH rest); [done | simpl in Hfuel; lia].
  - by exists (Raise e), st1, rest.
  - done.
Qed.

Lemma workers_keep_rows (n : nat) :
  ∀ q st, rows_kept stores_csv q st →
    ∃ st' q', workers' n st = Some st' ∧ rows_kept stores_csv q' st'.
Proof.
  induction n as [|n IH]; intros q st Hst; [by exists st, q|].
  cbn [workers].
  destruct (run_keeps_rows (S (length (s_queue st))) q st Hst) as (r & st1 & q1 & -> & Hst1).
  { destruct Hst as (_ & _ & ->). lia. }
  by apply (IH q1).
Qed.
End ShopMain.

(** X20.  [main] comes to an end for every input and every behaviour of
    the network and of the parsers, also when workers die of an
    exception, and what it hands to the writer has one row per input
    row, in the input order, each with the ["url"] it was read with. *)
Theorem main_keeps_every_row
    (sess_get : nat → string → result response)
    (get_contacts : string → gset string * gset string * gset string)
    (product_refs : string → list string) (Json : Type)
    (response_json : string → result Json)
    (product_title : Json → result string)
    (product_image : Json → result (option string))
    (stores_csv : list string) :
  ∃ rows,
    main sess_get get_contacts product_refs Json response_json product_title
      product_image stores_csv = Some rows
    ∧ length rows = length stores_csv
    ∧ ∀ j u, stores_csv !! j = Some u →
        ∃ d, rows !! j = Some d ∧ d !! "url" = Some (VStr u).
Proof.
  unfold main.
  set (dict_stores := (λ u, {[ "url" := VStr u ]}) <$> stores_csv).
  destruct (workers_keep_rows sess_get get_contacts product_refs Json response_json
              product_title product_image stores_csv THREAD_COUNT
              (seq 0 (length dict_stores))
              (mkShop 0 dict_stores (seq 0 (length dict_stores))))
    as (st' & q' & -> & Hlen & Hrows & _).
  { split; [simpl; unfold dict_stores; by rewrite length_fmap|]. split; [|done].
    intros j u Hj. exists {[ "url" := VStr u ]}. simpl. unfold dict_stores.
    split; [by rewrite list_lookup_fmap, Hj | by rewrite lookup_singleton_eq]. }
  exists (s_stores st'). by split.
Qed.
